(** * In-memory canonical chain state (crates/chain-state/src/in_memory.rs)

    Shallow embedding of [InMemoryState], [BlockState], [ExecutedBlock],
    [NewCanonicalChain] and the mutation protocol of
    [CanonicalInMemoryState] ([update_blocks], [update_chain],
    [remove_persisted_blocks]).

    Modelling choices:
    - [B256] hashes, [u64] block numbers and [Address]es are [N]; no
      arithmetic is performed on them, so no wrap-around arises.
    - [HashMap<B256, Arc<BlockState>>] and [HashMap<u64, B256>] are stdpp
      [gmap]s; an [Arc] is the value it points to (every use in this file
      clones the pointee, and nothing is mutated through an [Arc]).
    - The three [RwLock]s are taken together by every mutation, so a
      mutation is one atomic step on the record [InMemoryState].
    - The iteration order of [HashMap::drain] is unspecified and
      [sort_unstable_by_key] may order equal keys either way, so
      [remove_persisted_blocks] is a relation admitting every order the
      code can produce. *)

From stdpp Require Import base gmap list sorting.

Set Warnings "-register-all".

(** ** Data model *)

(** [Receipts { receipt_vec: Vec<Vec<Option<Receipt>>> }]; a [Receipt] is
    kept abstract as an [N]. *)
Definition Receipt := N.

Record Receipts := mkReceipts { receipt_vec : list (list (option Receipt)) }.

(** [ExecutionOutcome]: its receipts, and the remaining bundle state kept
    abstract. *)
Record ExecutionOutcome := mkExecutionOutcome {
  receipts : Receipts;
  bundle : N
}.

(** [SealedBlock]: the sealed hash together with the header fields read by
    this module. *)
Record SealedBlock := mkSealedBlock {
  sb_hash : N;
  sb_number : N;
  sb_parent_hash : N;
  sb_state_root : N
}.

(** [ExecutedBlock { block, senders, execution_output, hashed_state, trie }]. *)
Record ExecutedBlock := mkExecutedBlock {
  eb_block : SealedBlock;
  eb_senders : list N;
  eb_execution_output : ExecutionOutcome;
  eb_hashed_state : N;
  eb_trie : N
}.

(** [BlockState { block, parent: Option<Box<BlockState>> }]. *)
Inductive BlockState := mkBlockState {
  bs_block : ExecutedBlock;
  bs_parent : option BlockState
}.

(** [InMemoryState { blocks, numbers, pending }]. *)
Record InMemoryState := mkInMemoryState {
  blocks : gmap N BlockState;
  numbers : gmap N N;
  pending : option BlockState
}.

(** ** [BlockState] *)

(** [BlockState::new] *)
Definition BlockState_new (block : ExecutedBlock) : BlockState :=
  mkBlockState block None.

(** [BlockState::with_parent] *)
Definition BlockState_with_parent (block : ExecutedBlock) (parent : option BlockState)
  : BlockState :=
  mkBlockState block parent.

(** [BlockState::hash] and [BlockState::number] *)
Definition hash (st : BlockState) : N := sb_hash (eb_block (bs_block st)).
Definition number (st : BlockState) : N := sb_number (eb_block (bs_block st)).

(** [BlockState::anchor]: [(number, hash)] of the parent of the oldest
    ancestor ([SealedBlock::parent_num_hash], whose number is
    [number.saturating_sub(1)]; [N] subtraction saturates at 0). *)
Fixpoint anchor (st : BlockState) : N * N :=
  match st with
  | mkBlockState b None => ((sb_number (eb_block b) - 1)%N, sb_parent_hash (eb_block b))
  | mkBlockState _ (Some p) => anchor p
  end.

(** The [while let Some(parent) = current] loop of
    [BlockState::parent_state_chain], entered with [current = Some parent]:
    [parents.insert(0, parent)], then [current = parent.parent]. *)
Fixpoint parent_state_chain_loop (parents : list BlockState) (parent : BlockState)
  : list BlockState :=
  match parent with
  | mkBlockState _ None => parent :: parents
  | mkBlockState _ (Some next) => parent_state_chain_loop (parent :: parents) next
  end.

(** [BlockState::parent_state_chain]: the loop starts from
    [current = self.parent]; with [current = None] it returns the empty
    vector. *)
Definition parent_state_chain (st : BlockState) : list BlockState :=
  match bs_parent st with
  | None => []
  | Some parent => parent_state_chain_loop [] parent
  end.

(** [BlockState::chain]: [parent_state_chain] then [push(self)]. *)
Definition chain (st : BlockState) : list BlockState :=
  parent_state_chain st ++ [st].

(** ** [InMemoryState] queries *)

(** [InMemoryState::state_by_hash] *)
Definition state_by_hash (s : InMemoryState) (h : N) : option BlockState :=
  blocks s !! h.

(** [InMemoryState::state_by_number] *)
Definition state_by_number (s : InMemoryState) (n : N) : option BlockState :=
  numbers s !! n ≫= fun h => blocks s !! h.

(** [Iterator::max_by_key] on [(number, hash)] pairs keyed by the number:
    the last maximal element wins. *)
Definition max_by_key_step (acc : option (N * N)) (e : N * N) : option (N * N) :=
  match acc with
  | None => Some e
  | Some m => if (m.1 <=? e.1)%N then Some e else Some m
  end.

Definition max_by_key (l : list (N * N)) : option (N * N) :=
  foldl max_by_key_step None l.

(** [InMemoryState::head_state]; the map is iterated in [map_to_list]
    order (its keys are distinct, so the maximum does not depend on it). *)
Definition head_state (s : InMemoryState) : option BlockState :=
  max_by_key (map_to_list (numbers s)) ≫= fun e => blocks s !! e.2.

(** [InMemoryState::pending_state]: a fresh [BlockState::new] over a clone
    of the pending block. *)
Definition pending_state (s : InMemoryState) : option BlockState :=
  (fun st => BlockState_new (bs_block st)) <$> pending s.

(** ** [CanonicalInMemoryState] mutations *)

(** [block.block().hash()] and [block.block().number] of an
    [ExecutedBlock]. *)
Definition eb_hash (b : ExecutedBlock) : N := sb_hash (eb_block b).
Definition eb_number (b : ExecutedBlock) : N := sb_number (eb_block b).

(** The maps under the [blocks] and [numbers] write locks. *)
Abbreviation Maps := (gmap N BlockState * gmap N N)%type.

(** Body of the [for block in reorged] loop of [update_blocks]:
    [blocks.remove(&hash); numbers.remove(&number)], with hash and number
    read from the reorged [ExecutedBlock]. *)
Definition remove_reorged_block (m : Maps) (block : ExecutedBlock) : Maps :=
  (delete (eb_hash block) m.1, delete (eb_number block) m.2).

Fixpoint remove_reorged (m : Maps) (reorged : list ExecutedBlock) : Maps :=
  match reorged with
  | [] => m
  | block :: rest => remove_reorged (remove_reorged_block m block) rest
  end.

(** Body of the insertion loops of [update_blocks] and
    [remove_persisted_blocks] (the two are written identically): the
    parent is looked up by [parent_hash] in the current [blocks] map, a
    [BlockState::with_parent] is built, and it is inserted by hash and by
    number. *)
Definition insert_block (m : Maps) (block : ExecutedBlock) : Maps :=
  let parent := m.1 !! sb_parent_hash (eb_block block) in
  let block_state := BlockState_with_parent block parent in
  let h := hash block_state in
  let n := number block_state in
  (<[h := block_state]> m.1, <[n := h]> m.2).

Fixpoint insert_blocks (m : Maps) (new_blocks : list ExecutedBlock) : Maps :=
  match new_blocks with
  | [] => m
  | block :: rest => insert_blocks (insert_block m block) rest
  end.

(** [CanonicalInMemoryState::update_blocks]: remove the reorged blocks,
    insert the new ones, then [pending.take()]. *)
Definition update_blocks (s : InMemoryState) (new_blocks reorged : list ExecutedBlock)
  : InMemoryState :=
  let m := insert_blocks (remove_reorged (blocks s, numbers s) reorged) new_blocks in
  mkInMemoryState m.1 m.2 None.

(** [NewCanonicalChain] *)
Inductive NewCanonicalChain :=
| Commit (new : list ExecutedBlock)
| Reorg (new old : list ExecutedBlock).

(** [CanonicalInMemoryState::update_chain] *)
Definition update_chain (s : InMemoryState) (new_chain : NewCanonicalChain) : InMemoryState :=
  match new_chain with
  | Commit new => update_blocks s new []
  | Reorg new old => update_blocks s new old
  end.

(** The blocks kept by [remove_persisted_blocks] in the order
    [blocks.drain()] yields them (here [map_to_list] order):
    [.map(|(_, b)| b.block.clone()).filter(|b| b.block().number > h)]. *)
Definition drained_blocks (s : InMemoryState) (persisted_height : N) : list ExecutedBlock :=
  filter (fun b => (persisted_height < sb_number (eb_block b))%N)
    ((fun kv => bs_block kv.2) <$> map_to_list (blocks s)).

(** [old_blocks.sort_unstable_by_key(|block| block.block().number)]
    yields some permutation of its input that is sorted by number. *)
Definition number_le (a b : ExecutedBlock) : Prop :=
  (sb_number (eb_block a) <= sb_number (eb_block b))%N.

(** [numbers.clear()], [blocks.drain()], then re-insertion of the sorted
    survivors into the emptied maps; the [pending] lock is taken but its
    contents are not touched. *)
Definition reinsert_persisted (s : InMemoryState) (old_blocks : list ExecutedBlock)
  : InMemoryState :=
  let m := insert_blocks (∅, ∅) old_blocks in
  mkInMemoryState m.1 m.2 (pending s).

(** [CanonicalInMemoryState::remove_persisted_blocks] as a step relation:
    one step per order the drain and the unstable sort can produce. *)
Inductive remove_persisted_blocks (s : InMemoryState) (persisted_height : N)
  : InMemoryState → Prop :=
| remove_persisted_blocks_step (old_blocks : list ExecutedBlock) :
    old_blocks ≡ₚ drained_blocks s persisted_height →
    Sorted number_le old_blocks →
    remove_persisted_blocks s persisted_height (reinsert_persisted s old_blocks).

(** A deterministic instance of [remove_persisted_blocks]: the drained
    survivors sorted by number with stdpp's merge sort. *)
#[global] Instance number_le_dec : RelDecision number_le.
Proof. intros a b. unfold number_le. apply _. Defined.

Definition remove_persisted_blocks_fn (s : InMemoryState) (persisted_height : N)
  : InMemoryState :=
  reinsert_persisted s
    (merge_sort number_le (drained_blocks s persisted_height)).

(** ** Receipts *)

(** A panic raised by [debug_assert!]. *)
Inductive Panic := DebugAssertFailed (found : nat).

(** [BlockState::executed_block_receipts].  [debug_assertions] is the
    [cfg(debug_assertions)] flag: in a debug build the [debug_assert!]
    panics when the outcome has more than one block's receipt list; in a
    release build it is compiled out.  Then [receipt_vec.first()] with its
    [filter_map(|r| r.clone())], or [unwrap_or_default()]. *)
Definition executed_block_receipts (debug_assertions : bool) (st : BlockState)
  : Panic + list Receipt :=
  let rv := receipt_vec (receipts (eb_execution_output (bs_block st))) in
  if debug_assertions && negb (length rv <=? 1)%nat then inl (DebugAssertFailed (length rv))
  else inr (match head rv with
            | Some block_receipts => omap (fun opt_receipt => opt_receipt) block_receipts
            | None => []
            end).

(** ** Notifications *)

(** [SealedBlockWithSenders], as built by
    [ExecutedBlock::sealed_block_with_senders]. *)
Record SealedBlockWithSenders := mkSealedBlockWithSenders {
  sbws_block : SealedBlock;
  sbws_senders : list N
}.

Definition sealed_block_with_senders (b : ExecutedBlock) : SealedBlockWithSenders :=
  mkSealedBlockWithSenders (eb_block b) (eb_senders b).

(** Modelled from the spec: [Chain] and [Chain::new] of
    reth_execution_types (not part of this excerpt).  A chain holds the
    (block, senders) pairs it is built from, the one execution outcome
    passed to it, and the optional trie updates. *)
Record Chain := mkChain {
  chain_blocks : list SealedBlockWithSenders;
  chain_execution_outcome : ExecutionOutcome;
  chain_trie_updates : option N
}.

Definition Chain_new (bs : list SealedBlockWithSenders) (execution_outcome : ExecutionOutcome)
  (trie_updates : option N) : Chain :=
  mkChain bs execution_outcome trie_updates.

(** [CanonStateNotification] *)
Inductive CanonStateNotification :=
| NotifyCommit (new : Chain)
| NotifyReorg (old new : Chain).

(** The [Chain] built for one side of a transition:
    [Chain::new(v.iter().map(sealed_block_with_senders),
    v.last().unwrap().execution_output.clone(), None)]; [None] stands for
    the panic of [unwrap] on an empty vector. *)
Definition chain_of (v : list ExecutedBlock) : option Chain :=
  last v ≫= fun l =>
  Some (Chain_new (sealed_block_with_senders <$> v) (eb_execution_output l) None).

(** [NewCanonicalChain::to_chain_notification] *)
Definition to_chain_notification (c : NewCanonicalChain) : option CanonStateNotification :=
  match c with
  | Commit new => NotifyCommit <$> chain_of new
  | Reorg new old =>
      chain_of new ≫= fun n => chain_of old ≫= fun o => Some (NotifyReorg o n)
  end.

(** ** Further accessors *)

(** [SealedHeader]: the sealed hash with the header fields of a
    [SealedBlock]; [SealedBlock::header] projects them out. *)
Record SealedHeader := mkSealedHeader {
  sh_hash : N;
  sh_number : N;
  sh_parent_hash : N;
  sh_state_root : N
}.

Definition sealed_header (b : SealedBlock) : SealedHeader :=
  mkSealedHeader (sb_hash b) (sb_number b) (sb_parent_hash b) (sb_state_root b).

(** [CanonicalInMemoryState::header_by_hash]:
    [state_by_hash(hash).map(|block| block.block().block.header.clone())]. *)
Definition header_by_hash (s : InMemoryState) (h : N) : option SealedHeader :=
  (fun st => sealed_header (eb_block (bs_block st))) <$> state_by_hash s h.

(** [CanonicalInMemoryState::pending_block_num_hash]; a [BlockNumHash] is
    the pair (number, hash). *)
Definition pending_block_num_hash (s : InMemoryState) : option (N * N) :=
  (fun st => (number st, hash st)) <$> pending_state s.

(** [CanonicalInMemoryState::pending_sealed_header] *)
Definition pending_sealed_header (s : InMemoryState) : option SealedHeader :=
  (fun st => sealed_header (eb_block (bs_block st))) <$> pending_state s.

(** [CanonicalInMemoryState::pending_block] *)
Definition pending_block (s : InMemoryState) : option SealedBlock :=
  (fun st => eb_block (bs_block st)) <$> pending_state s.

(** [CanonicalInMemoryState::pending_block_and_receipts]: the closure
    passed to [map] calls [executed_block_receipts], whose
    [debug_assert!] may panic. *)
Definition pending_block_and_receipts (debug_assertions : bool) (s : InMemoryState)
  : Panic + option (SealedBlock * list Receipt) :=
  match pending_state s with
  | None => inr None
  | Some block_state =>
      match executed_block_receipts debug_assertions block_state with
      | inl p => inl p
      | inr rs => inr (Some (eb_block (bs_block block_state), rs))
      end
  end.

(** The in-memory blocks [CanonicalInMemoryState::state_provider] passes
    to [MemoryOverlayStateProvider::new] (not part of this excerpt) along
    with the historical provider: [chain()] of the state tracked under the
    hash, each mapped by [BlockState::block], or an empty vector. *)
Definition state_provider_in_memory (s : InMemoryState) (h : N) : list ExecutedBlock :=
  match state_by_hash s h with
  | Some state => bs_block <$> chain state
  | None => []
  end.

(** [InMemoryState::block_count] (a test helper): [blocks.len()]. *)
Definition block_count (s : InMemoryState) : nat := size (blocks s).

(** [NewCanonicalChain::new_block_count] *)
Definition new_block_count (c : NewCanonicalChain) : nat :=
  match c with
  | Commit new | Reorg new _ => length new
  end.

(** [NewCanonicalChain::reorged_block_count] *)
Definition reorged_block_count (c : NewCanonicalChain) : nat :=
  match c with
  | Commit _ => 0
  | Reorg _ old => length old
  end.

(** [NewCanonicalChain::tip]: [new.last().expect("non empty blocks").block()];
    [None] stands for the panic of [expect] on an empty vector. *)
Definition tip (c : NewCanonicalChain) : option SealedBlock :=
  match c with
  | Commit new | Reorg new _ => eb_block <$> last new
  end.

(** ** Sample blocks *)

(** A block with the given hash, number and parent hash, no senders and
    an empty execution outcome. *)
Definition sample_block (h n parent_h : N) : ExecutedBlock :=
  mkExecutedBlock (mkSealedBlock h n parent_h 0) [] (mkExecutionOutcome (mkReceipts []) 0) 0 0.

Definition empty_state : InMemoryState := mkInMemoryState ∅ ∅ None.

(** Three blocks, each the child of the previous one, and a competing
    block at height 2. *)
Definition sample_b1 : ExecutedBlock := sample_block 11 1 10.
Definition sample_b2 : ExecutedBlock := sample_block 12 2 11.
Definition sample_b3 : ExecutedBlock := sample_block 13 3 12.
Definition sample_b2' : ExecutedBlock := sample_block 22 2 11.

(** A child of [sample_b3]. *)
Definition sample_b4 : ExecutedBlock := sample_block 14 4 13.

(** The state after committing [sample_b1], [sample_b2], [sample_b3]. *)
Definition sample_chain_state : InMemoryState :=
  update_chain empty_state (Commit [sample_b1; sample_b2; sample_b3]).

(** A state whose block carries two blocks' worth of receipts. *)
Definition two_receipt_lists_state : BlockState :=
  BlockState_new
    (mkExecutedBlock (mkSealedBlock 1 1 0 0) []
       (mkExecutionOutcome (mkReceipts [[Some 7%N; None]; [Some 8%N]]) 0) 0 0).

(** ** Invariants and hypotheses used by the statements *)

(** The structural invariant of [InMemoryState] (spec section 3): every
    number entry resolves to a state with that number; every state is
    stored under its own hash, so the map holds at most one state per
    block hash; the pending block is in neither canonical map. *)
Definition numbers_resolve (bl : gmap N BlockState) (nu : gmap N N) : Prop :=
  ∀ n h, nu !! n = Some h → ∃ st, bl !! h = Some st ∧ number st = n.

Definition blocks_keyed (bl : gmap N BlockState) : Prop :=
  ∀ h st, bl !! h = Some st → hash st = h.

Definition pending_untracked (s : InMemoryState) : Prop :=
  ∀ p, pending s = Some p →
       blocks s !! hash p = None ∧ ∀ n, numbers s !! n ≠ Some (hash p).

Definition state_inv (s : InMemoryState) : Prop :=
  numbers_resolve (blocks s) (numbers s) ∧ blocks_keyed (blocks s) ∧ pending_untracked s.

(** The invariant on the two maps alone, relative to a set [P] of blocks
    that every tracked state is built from. *)
Definition maps_inv (P : ExecutedBlock → Prop) (m : Maps) : Prop :=
  numbers_resolve m.1 m.2 ∧ blocks_keyed m.1 ∧ ∀ h st, m.1 !! h = Some st → P (bs_block st).

(** A block hash identifies the block's number (a [B256] block hash is a
    hash of the header, which contains the number). *)
Definition hash_determines_number (P : ExecutedBlock → Prop) : Prop :=
  ∀ b1 b2, P b1 → P b2 → eb_hash b1 = eb_hash b2 → eb_number b1 = eb_number b2.

Definition tracked_block (s : InMemoryState) (b : ExecutedBlock) : Prop :=
  ∃ h st, blocks s !! h = Some st ∧ bs_block st = b.

Definition transition_blocks (c : NewCanonicalChain) : list ExecutedBlock :=
  match c with
  | Commit new => new
  | Reorg new old => new ++ old
  end.

(** Every parent link of a tracked state points at the state tracked
    under the parent's hash. *)
Definition parents_tracked (bl : gmap N BlockState) : Prop :=
  ∀ h st p, bl !! h = Some st → bs_parent st = Some p → bl !! hash p = Some p.

(** A state followed by its ancestors, newest first. *)
Fixpoint lineage (st : BlockState) : list BlockState :=
  match st with
  | mkBlockState _ None => [st]
  | mkBlockState _ (Some p) => st :: lineage p
  end.

(** Each parent link joins consecutive block numbers. *)
Fixpoint links_consecutive (st : BlockState) : Prop :=
  match st with
  | mkBlockState _ None => True
  | mkBlockState b (Some p) => (number p + 1 = eb_number b)%N ∧ links_consecutive p
  end.

(** A commit extending the current head: a non-empty block list, oldest
    first (strictly increasing numbers), every block above every tracked
    number. *)
Definition extends_head (s : InMemoryState) (new : list ExecutedBlock) : Prop :=
  new ≠ [] ∧ Sorted (fun a b => (eb_number a < eb_number b)%N) new ∧
  ∀ n h b, numbers s !! n = Some h → b ∈ new → (n < eb_number b)%N.

(** A sequence of [Commit] transitions applied in order. *)
Fixpoint commit_all (s : InMemoryState) (cs : list (list ExecutedBlock)) : InMemoryState :=
  match cs with
  | [] => s
  | c :: rest => commit_all (update_chain s (Commit c)) rest
  end.

Fixpoint commits_extend (s : InMemoryState) (cs : list (list ExecutedBlock)) : Prop :=
  match cs with
  | [] => True
  | c :: rest => extends_head s c ∧ commits_extend (update_chain s (Commit c)) rest
  end.

(** The [new] and [old] block lists of a transition. *)
Definition chain_new (c : NewCanonicalChain) : list ExecutedBlock :=
  match c with
  | Commit new | Reorg new _ => new
  end.

Definition chain_old (c : NewCanonicalChain) : list ExecutedBlock :=
  match c with
  | Commit _ => []
  | Reorg _ old => old
  end.

(** ** Lemmas on the mutation loops *)

Section Loops.

Implicit Types (m : Maps) (b : ExecutedBlock) (l : list ExecutedBlock).

Lemma remove_reorged_blocks_lookup m l h :
  (remove_reorged m l).1 !! h = if decide (h ∈ eb_hash <$> l) then None else m.1 !! h.
Proof.
  revert m. induction l as [|b l IH]; intros m; cbn [remove_reorged map].
  - rewrite decide_False; [done | set_solver].
  - rewrite IH. cbn [remove_reorged_block fst snd]. rewrite lookup_delete.
    destruct (decide (h ∈ eb_hash <$> l)) as [Hin|Hin];
      [rewrite decide_True; [done | set_solver]|].
    destruct (decide (eb_hash b = h)) as [<-|Hne].
    + rewrite decide_True; [done | set_solver].
    + rewrite decide_False; [done | set_solver].
Qed.

Lemma remove_reorged_numbers_lookup m l n :
  (remove_reorged m l).2 !! n = if decide (n ∈ eb_number <$> l) then None else m.2 !! n.
Proof.
  revert m. induction l as [|b l IH]; intros m; cbn [remove_reorged map].
  - rewrite decide_False; [done | set_solver].
  - rewrite IH. cbn [remove_reorged_block fst snd]. rewrite lookup_delete.
    destruct (decide (n ∈ eb_number <$> l)) as [Hin|Hin];
      [rewrite decide_True; [done | set_solver]|].
    destruct (decide (eb_number b = n)) as [<-|Hne].
    + rewrite decide_True; [done | set_solver].
    + rewrite decide_False; [done | set_solver].
Qed.

Lemma insert_blocks_app m l1 l2 :
  insert_blocks m (l1 ++ l2) = insert_blocks (insert_blocks m l1) l2.
Proof. revert m. induction l1 as [|b l1 IH]; intros m; simpl; auto. Qed.

Lemma insert_block_fst m b :
  (insert_block m b).1 = <[eb_hash b := mkBlockState b (m.1 !! sb_parent_hash (eb_block b))]> m.1.
Proof. reflexivity. Qed.

Lemma insert_block_snd m b :
  (insert_block m b).2 = <[eb_number b := eb_hash b]> m.2.
Proof. reflexivity. Qed.

(** A hash not among the inserted blocks keeps its entry. *)
Lemma insert_blocks_blocks_notin m l h :
  h ∉ eb_hash <$> l → (insert_blocks m l).1 !! h = m.1 !! h.
Proof.
  revert m. induction l as [|b l IH]; intros m Hn; simpl; auto.
  rewrite IH by set_solver. rewrite insert_block_fst, lookup_insert_ne; [done|].
  set_solver.
Qed.

(** Every inserted hash is resolved to a state built from one of the
    inserted blocks carrying that hash. *)
Lemma insert_blocks_blocks_in m l h :
  h ∈ eb_hash <$> l →
  ∃ b p, b ∈ l ∧ eb_hash b = h ∧ (insert_blocks m l).1 !! h = Some (mkBlockState b p).
Proof.
  revert m. induction l as [|b l IH]; intros m Hin; simpl; [set_solver|].
  destruct (decide (h ∈ eb_hash <$> l)) as [Hl|Hl].
  - destruct (IH (insert_block m b) Hl) as (b' & p & ? & ? & ?).
    exists b', p. split_and!; [set_solver|done|done].
  - assert (h = eb_hash b) as -> by set_solver.
    rewrite insert_blocks_blocks_notin by done.
    rewrite insert_block_fst, lookup_insert_eq.
    eexists b, _. split_and!; [set_solver|done|done].
Qed.

(** With [P] closed under "same hash, same number", the map invariant
    survives each loop of [update_blocks]. *)
Section WithBlocks.

Variable P : ExecutedBlock → Prop.
Hypothesis HP : hash_determines_number P.

Lemma remove_reorged_block_inv m b :
  P b → maps_inv P m → maps_inv P (remove_reorged_block m b).
Proof.
  intros Hb (Hres & Hkey & Hin). unfold remove_reorged_block. split_and!; simpl.
  - intros n h Hn. apply lookup_delete_Some in Hn as [Hnb Hn].
    destruct (Hres n h Hn) as (st & Hst & Hnum).
    destruct (decide (eb_hash b = h)) as [<-|Hne].
    + exfalso. apply Hnb. rewrite <- Hnum.
      apply (HP b (bs_block st)); [done | by eapply Hin | symmetry; by eapply Hkey].
    + exists st. by rewrite lookup_delete_ne.
  - intros h st Hst. apply lookup_delete_Some in Hst as [_ Hst]. by eapply Hkey.
  - intros h st Hst. apply lookup_delete_Some in Hst as [_ Hst]. by eapply Hin.
Qed.

Lemma remove_reorged_inv m l :
  Forall P l → maps_inv P m → maps_inv P (remove_reorged m l).
Proof.
  revert m. induction l as [|b l IH]; intros m Hl Hm; simpl; [done|].
  apply Forall_cons in Hl as [Hb Hl]. apply IH; [done|]. by apply remove_reorged_block_inv.
Qed.

Lemma insert_block_inv m b :
  P b → maps_inv P m → maps_inv P (insert_block m b).
Proof.
  intros Hb (Hres & Hkey & Hin). unfold maps_inv. rewrite insert_block_fst, insert_block_snd.
  split_and!.
  - intros n h Hn. apply lookup_insert_Some in Hn as [[<- <-]|[Hnb Hn]].
    + rewrite lookup_insert_eq. by eexists.
    + destruct (Hres n h Hn) as (st & Hst & Hnum).
      destruct (decide (eb_hash b = h)) as [<-|Hne].
      * exfalso. apply Hnb. rewrite <- Hnum. symmetry.
        apply (HP (bs_block st) b); [by eapply Hin | done | by eapply Hkey].
      * exists st. by rewrite lookup_insert_ne.
  - intros h st Hst. apply lookup_insert_Some in Hst as [[<- <-]|[_ Hst]]; [done|].
    by eapply Hkey.
  - intros h st Hst. apply lookup_insert_Some in Hst as [[<- <-]|[_ Hst]]; [done|].
    by eapply Hin.
Qed.

Lemma insert_blocks_inv m l :
  Forall P l → maps_inv P m → maps_inv P (insert_blocks m l).
Proof.
  revert m. induction l as [|b l IH]; intros m Hl Hm; simpl; [done|].
  apply Forall_cons in Hl as [Hb Hl]. apply IH; [done|]. by apply insert_block_inv.
Qed.

End WithBlocks.

End Loops.

(** ** Lemmas on [remove_persisted_blocks] *)

Section Persist.

Lemma NoDup_fmap_same {A B} (f : A → B) (l : list A) x y :
  NoDup (f <$> l) → x ∈ l → y ∈ l → f x = f y → x = y.
Proof.
  induction l as [|a l IH]; intros Hnd Hx Hy Hf; [set_solver|].
  rewrite fmap_cons in Hnd. apply NoDup_cons in Hnd as [Hna Hnd].
  apply elem_of_cons in Hx, Hy.
  destruct Hx as [->|Hx], Hy as [->|Hy]; auto.
  - exfalso. apply Hna. rewrite Hf. by apply list_elem_of_fmap_2.
  - exfalso. apply Hna. rewrite <- Hf. by apply list_elem_of_fmap_2.
Qed.

Lemma elem_of_drained_blocks s h b :
  b ∈ drained_blocks s h ↔
  (h < eb_number b)%N ∧ ∃ k st, blocks s !! k = Some st ∧ bs_block st = b.
Proof.
  unfold drained_blocks. rewrite list_elem_of_filter, list_elem_of_fmap.
  split.
  - intros [Hlt ([k st] & -> & Hkv)]. apply elem_of_map_to_list in Hkv.
    split; [done|]. by exists k, st.
  - intros [Hlt (k & st & Hk & <-)]. split; [done|].
    exists (k, st). split; [done|]. by apply elem_of_map_to_list.
Qed.

Lemma drained_blocks_NoDup s h :
  blocks_keyed (blocks s) → NoDup (eb_hash <$> drained_blocks s h).
Proof.
  intros Hkey. unfold drained_blocks.
  apply (sublist_NoDup _ (eb_hash <$> ((fun kv => bs_block kv.2) <$> map_to_list (blocks s)))).
  - assert (eb_hash <$> ((fun kv => bs_block kv.2) <$> map_to_list (blocks s))
            = (map_to_list (blocks s)).*1) as ->.
    { rewrite <- list_fmap_compose. apply list_fmap_ext.
      intros i [k st] Hi. apply list_elem_of_lookup_2, elem_of_map_to_list in Hi.
      simpl. by apply Hkey. }
    apply NoDup_fst_map_to_list.
  - apply fmap_sublist, sublist_filter.
Qed.

Lemma insert_blocks_empty_keys l h st :
  (insert_blocks (∅, ∅) l).1 !! h = Some st → h ∈ eb_hash <$> l.
Proof.
  intros Hst. destruct (decide (h ∈ eb_hash <$> l)) as [|Hn]; [done|].
  rewrite insert_blocks_blocks_notin in Hst by done. simpl in Hst.
  by rewrite lookup_empty in Hst.
Qed.

(** Inserting blocks whose hashes are fresh keeps every parent link
    pointing at a tracked state. *)
Lemma insert_blocks_parents_tracked m l :
  NoDup (eb_hash <$> l) → (∀ b, b ∈ l → m.1 !! eb_hash b = None) →
  blocks_keyed m.1 → parents_tracked m.1 →
  blocks_keyed (insert_blocks m l).1 ∧ parents_tracked (insert_blocks m l).1.
Proof.
  revert m. induction l as [|b l IH]; intros m Hnd Hfresh Hkey Hpar; simpl; [done|].
  rewrite fmap_cons in Hnd. apply NoDup_cons in Hnd as [Hnb Hnd].
  assert (m.1 !! eb_hash b = None) as Hb by (apply Hfresh; set_solver).
  apply IH; [done| | |].
  - intros b' Hb'. rewrite insert_block_fst, lookup_insert_ne.
    + apply Hfresh. set_solver.
    + intros Heq. apply Hnb. rewrite Heq. by apply list_elem_of_fmap_2.
  - intros h st Hst. rewrite insert_block_fst in Hst.
    apply lookup_insert_Some in Hst as [[<- <-]|[_ Hst]]; [done|]. by eapply Hkey.
  - intros h st p Hst Hp. rewrite insert_block_fst in Hst |- *.
    apply lookup_insert_Some in Hst as [[<- <-]|[Hne Hst]].
    + simpl in Hp. pose proof (Hkey _ _ Hp) as Hph.
      rewrite lookup_insert_ne; [by rewrite Hph|].
      intros Heq. rewrite Heq, Hph in Hb. congruence.
    + pose proof (Hpar _ _ _ Hst Hp) as Hpt.
      rewrite lookup_insert_ne; [done|].
      intros Heq. rewrite <- Heq in Hpt. congruence.
Qed.

(** The ancestors of a tracked state, under [parents_tracked]. *)
Lemma lineage_tracked bl :
  parents_tracked bl →
  ∀ st, bl !! hash st = Some st → ∀ a, a ∈ lineage st → bl !! hash a = Some a.
Proof.
  intros Hpar. fix IH 1. intros [b [p|]] Hst a Ha; simpl in Ha.
  - apply elem_of_cons in Ha as [->|Ha]; [done|].
    apply (IH p); [|done]. eapply Hpar; [exact Hst|reflexivity].
  - apply list_elem_of_singleton in Ha as ->. done.
Qed.

Lemma reinsert_hashes s h old :
  blocks_keyed (blocks s) → old ≡ₚ drained_blocks s h →
  NoDup (eb_hash <$> old) ∧ hash_determines_number (fun b => b ∈ old).
Proof.
  intros Hkey Hperm.
  assert (NoDup (eb_hash <$> old)) as Hnd.
  { rewrite Hperm. by apply drained_blocks_NoDup. }
  split; [done|]. intros b1 b2 Hb1 Hb2 Hh.
  by rewrite (NoDup_fmap_same eb_hash old b1 b2).
Qed.

Lemma reinsert_inv s h old :
  blocks_keyed (blocks s) → old ≡ₚ drained_blocks s h →
  maps_inv (fun b => b ∈ old) (insert_blocks (∅, ∅) old).
Proof.
  intros Hkey Hperm. destruct (reinsert_hashes s h old Hkey Hperm) as [_ Hhd].
  apply insert_blocks_inv; [done| |].
  - by apply Forall_forall.
  - split_and!; intros ??; simpl; rewrite lookup_empty; done.
Qed.

(** Every key of the re-inserted map was a key before. *)
Lemma reinsert_keys s h old k st :
  blocks_keyed (blocks s) → old ≡ₚ drained_blocks s h →
  (insert_blocks (∅, ∅) old).1 !! k = Some st → is_Some (blocks s !! k).
Proof.
  intros Hkey Hperm Hk. apply insert_blocks_empty_keys in Hk.
  apply list_elem_of_fmap in Hk as (b & -> & Hb). rewrite Hperm in Hb.
  apply elem_of_drained_blocks in Hb as (_ & k' & st' & Hst' & <-).
  change (eb_hash (bs_block st')) with (hash st'). rewrite (Hkey _ _ Hst'). by eexists.
Qed.

End Persist.

(** ** Chains of parent links *)

Lemma parent_state_chain_loop_lineage :
  ∀ p acc, parent_state_chain_loop acc p = rev (lineage p) ++ acc.
Proof.
  fix IH 1. intros [b [p|]] acc; simpl.
  - rewrite IH. by rewrite <- app_assoc.
  - done.
Qed.

Lemma parent_state_chain_lineage st :
  parent_state_chain st = match bs_parent st with None => [] | Some p => rev (lineage p) end.
Proof.
  destruct st as [b [p|]]; unfold parent_state_chain; simpl; [|done].
  by rewrite parent_state_chain_loop_lineage, app_nil_r.
Qed.

Lemma chain_lineage st : chain st = rev (lineage st).
Proof.
  destruct st as [b [p|]]; unfold chain, parent_state_chain; simpl; [|done].
  by rewrite parent_state_chain_loop_lineage, app_nil_r.
Qed.

(** ** [update_blocks] and the structural invariant *)

Lemma update_blocks_inv (P : ExecutedBlock → Prop) s new old :
  hash_determines_number P → maps_inv P (blocks s, numbers s) →
  Forall P new → Forall P old →
  maps_inv P (insert_blocks (remove_reorged (blocks s, numbers s) old) new) ∧
  state_inv (update_blocks s new old).
Proof.
  intros HP Hm Hnew Hold.
  assert (maps_inv P (insert_blocks (remove_reorged (blocks s, numbers s) old) new)) as Hm'.
  { apply insert_blocks_inv; [done|done|]. by apply remove_reorged_inv. }
  split; [done|]. destruct Hm' as (Hres & Hkey & _).
  unfold update_blocks, state_inv. simpl. split_and!; [done|done|].
  intros p Hp. discriminate.
Qed.

Lemma tracked_maps_inv s c :
  state_inv s →
  maps_inv (fun b => b ∈ transition_blocks c ∨ tracked_block s b) (blocks s, numbers s).
Proof.
  intros (Hres & Hkey & _). split_and!; [done|done|].
  intros h st Hst. right. by exists h, st.
Qed.

Lemma remove_reorged_keyed m l :
  blocks_keyed m.1 → blocks_keyed (remove_reorged m l).1.
Proof.
  intros Hkey h st Hst. rewrite remove_reorged_blocks_lookup in Hst.
  case_decide; [done|]. by apply Hkey.
Qed.

Lemma insert_blocks_keyed m l :
  blocks_keyed m.1 → blocks_keyed (insert_blocks m l).1.
Proof.
  revert m. induction l as [|b l IH]; intros m Hkey; simpl; [done|].
  apply IH. intros h st Hst. rewrite insert_block_fst in Hst.
  apply lookup_insert_Some in Hst as [[<- <-]|[_ Hst]]; [done|]. by apply Hkey.
Qed.

(** ** Claims *)

(** C3: a [Commit { new }] is exactly a [Reorg { new, old: [] }]: both
    leave the same hash map, number map and pending slot. *)
Theorem commit_is_reorg_without_old (s : InMemoryState) (new : list ExecutedBlock) :
  blocks (update_chain s (Commit new)) = blocks (update_chain s (Reorg new [])) ∧
  numbers (update_chain s (Commit new)) = numbers (update_chain s (Reorg new [])) ∧
  pending (update_chain s (Commit new)) = pending (update_chain s (Reorg new [])).
Proof. split_and!; reflexivity. Qed.

(** C10: [remove_persisted_blocks] leaves the pending slot as it was,
    whereas [update_chain] always empties it. *)
Theorem remove_persisted_blocks_keeps_pending (s s' : InMemoryState) (h : N) :
  remove_persisted_blocks s h s' →
  pending s' = pending s ∧ ∀ c, pending (update_chain s c) = None.
Proof.
  intros Hstep. destruct Hstep. split; [reflexivity|].
  intros [new|new old]; reflexivity.
Qed.

(** C4: the structural invariant ([state_inv]: every number entry resolves
    to a state with that number, every state is stored under its own hash
    so there is at most one state per hash, and the pending block is in
    neither map) is preserved by every [update_chain], for transitions
    whose block hashes identify block numbers, and by every
    [remove_persisted_blocks]. *)
Theorem state_inv_preserved :
  (∀ (s : InMemoryState) (c : NewCanonicalChain),
     state_inv s →
     hash_determines_number (fun b => b ∈ transition_blocks c ∨ tracked_block s b) →
     state_inv (update_chain s c)) ∧
  (∀ (s s' : InMemoryState) (h : N),
     state_inv s → remove_persisted_blocks s h s' → state_inv s').
Proof.
  split.
  - intros s c Hinv HP. pose proof (tracked_maps_inv s c Hinv) as Hm.
    destruct c as [new|new old]; simpl in *.
    + eapply update_blocks_inv; [exact HP|exact Hm| |constructor].
      apply Forall_forall. intros b Hb. by left.
    + eapply update_blocks_inv; [exact HP|exact Hm| |];
        apply Forall_forall; intros b Hb; left; set_solver.
  - intros s s' h (Hres & Hkey & Hpend) Hstep. destruct Hstep as [old Hperm Hsorted].
    destruct (reinsert_inv s h old Hkey Hperm) as (Hres' & Hkey' & _).
    unfold reinsert_persisted, state_inv. simpl. split_and!; [done|done|].
    intros p Hp. simpl in Hp. destruct (Hpend p Hp) as [Hpb _]. split.
    + destruct ((insert_blocks (∅, ∅) old).1 !! hash p) as [st|] eqn:Hst; [|done].
      apply (reinsert_keys s h old) in Hst; [|done|done]. rewrite Hpb in Hst.
      by destruct Hst.
    + intros n Hn. destruct (Hres' n (hash p) Hn) as (st & Hst & _).
      apply (reinsert_keys s h old) in Hst; [|done|done]. rewrite Hpb in Hst.
      by destruct Hst.
Qed.

(** C1: after [update_chain(Reorg { new, old })], with [old] and [new]
    sharing no hash and every state stored under its own hash, no hash of
    [old] resolves, its former number no longer resolves to the evicted
    state, and every hash of [new] resolves to a state built in this call
    from a block of [new] with that hash. *)
Theorem reorg_evicts_old_and_resolves_new (s : InMemoryState) (new old : list ExecutedBlock)
  (Hkey : blocks_keyed (blocks s))
  (Hdisj : ∀ b, b ∈ old → eb_hash b ∉ eb_hash <$> new) :
  (∀ b, b ∈ old →
     state_by_hash (update_chain s (Reorg new old)) (eb_hash b) = None ∧
     ∀ st, state_by_hash s (eb_hash b) = Some st →
           state_by_number (update_chain s (Reorg new old)) (number st) ≠ Some st) ∧
  (∀ b, b ∈ new → ∃ b' p, b' ∈ new ∧ eb_hash b' = eb_hash b ∧
     state_by_hash (update_chain s (Reorg new old)) (eb_hash b) = Some (mkBlockState b' p)).
Proof.
  assert (∀ b, b ∈ old →
     state_by_hash (update_chain s (Reorg new old)) (eb_hash b) = None) as Hgone.
  { intros b Hb. unfold state_by_hash, update_chain, update_blocks. simpl.
    rewrite insert_blocks_blocks_notin by (by apply Hdisj).
    rewrite remove_reorged_blocks_lookup, decide_True; [done|].
    by apply list_elem_of_fmap_2. }
  split.
  - intros b Hb. split; [by apply Hgone|]. intros st Hst Hnum.
    unfold state_by_number in Hnum. simpl in Hnum.
    destruct ((insert_blocks (remove_reorged (blocks s, numbers s) old) new).2 !! number st)
      as [h'|]; simpl in Hnum; [|discriminate].
    pose proof (insert_blocks_keyed _ new (remove_reorged_keyed (blocks s, numbers s) old Hkey) _ _ Hnum) as Hh'.
    unfold state_by_hash in Hst. rewrite (Hkey _ _ Hst) in Hh'. subst h'.
    specialize (Hgone b Hb). unfold state_by_hash, update_chain, update_blocks in Hgone.
    simpl in Hgone. congruence.
  - intros b Hb. unfold state_by_hash, update_chain, update_blocks. simpl.
    apply insert_blocks_blocks_in. by apply list_elem_of_fmap_2.
Qed.

(** C2: after [remove_persisted_blocks(h)] (from a state whose blocks are
    stored under their own hashes) no tracked state and no number entry
    is at or below [h]; every block tracked before with a number above [h]
    is still tracked under its hash; and every ancestor on the parent
    chain of a surviving state is itself the state tracked under its hash,
    so no chain reaches an evicted block. *)
Theorem remove_persisted_blocks_prunes (s s' : InMemoryState) (h : N)
  (Hkey : blocks_keyed (blocks s))
  (Hstep : remove_persisted_blocks s h s') :
  (∀ k st, blocks s' !! k = Some st → (h < number st)%N) ∧
  (∀ n k, numbers s' !! n = Some k → (h < n)%N) ∧
  (∀ k st, blocks s !! k = Some st → (h < number st)%N →
     ∃ st', blocks s' !! k = Some st' ∧ bs_block st' = bs_block st) ∧
  (∀ k st, blocks s' !! k = Some st →
     ∀ a, a ∈ parent_state_chain st → blocks s' !! hash a = Some a).
Proof.
  destruct Hstep as [old Hperm Hsorted]. unfold reinsert_persisted. simpl.
  destruct (reinsert_inv s h old Hkey Hperm) as (Hres' & Hkey' & Hin').
  destruct (reinsert_hashes s h old Hkey Hperm) as [Hnd _].
  assert (∀ k st, (insert_blocks (∅, ∅) old).1 !! k = Some st → (h < number st)%N) as Habove.
  { intros k st Hst. pose proof (Hin' _ _ Hst) as Hb. simpl in Hb.
    rewrite Hperm in Hb. by apply elem_of_drained_blocks in Hb as [? _]. }
  split_and!.
  - exact Habove.
  - intros n k Hn. destruct (Hres' _ _ Hn) as (st & Hst & <-). by eapply Habove.
  - intros k st Hst Hlt.
    assert (bs_block st ∈ old) as Hold.
    { rewrite Hperm. apply elem_of_drained_blocks. split; [done|]. by exists k, st. }
    rewrite <- (Hkey _ _ Hst).
    destruct (insert_blocks_blocks_in (∅, ∅) old (hash st)) as (b' & p & Hb' & Hh & Hl).
    { exact (list_elem_of_fmap_2 eb_hash old (bs_block st) Hold). }
    exists (mkBlockState b' p). split; [done|]. simpl.
    by apply (NoDup_fmap_same eb_hash old).
  - destruct (insert_blocks_parents_tracked (∅, ∅) old Hnd) as [_ Hpar].
    { intros b _. apply lookup_empty. }
    { intros ?? Hx. simpl in Hx. by rewrite lookup_empty in Hx. }
    { intros ??? Hx. simpl in Hx. by rewrite lookup_empty in Hx. }
    intros k st Hst a Ha. rewrite parent_state_chain_lineage in Ha.
    destruct (bs_parent st) as [p|] eqn:Hp; [|set_solver].
    apply (lineage_tracked _ Hpar p).
    + by eapply Hpar.
    + apply list_elem_of_In, in_rev, list_elem_of_In, Ha.
Qed.

(** ** Chains *)

Lemma chain_parent b p :
  chain (mkBlockState b (Some p)) = chain p ++ [mkBlockState b (Some p)].
Proof. by rewrite !chain_lineage. Qed.

Lemma chain_links_consecutive :
  ∀ st, links_consecutive st →
  Sorted (fun a c => number c = (number a + 1)%N) (chain st) ∧ last (chain st) = Some st.
Proof.
  fix IH 1. intros [b [p|]] Hl.
  - destruct Hl as [Hnum Hl]. destruct (IH p Hl) as [Hs Hlast].
    rewrite chain_parent. split; [|apply last_snoc].
    apply Sorted_snoc; [done|].
    apply last_Some in Hlast as [l' ->]. constructor. done.
  - rewrite chain_lineage. simpl. split; [repeat constructor|done].
Qed.

(** C5: for a state whose parent links join consecutive numbers,
    [chain()] is [parent_state_chain()] followed by the state itself, ends
    with the state, and its numbers go up by exactly one at each step
    (hence strictly increasing, without gaps); and committing [B1], [B2],
    [B3], each the child of the previous, gives [chain()] = [B1; B2; B3]
    on [B3]'s state and [[B1]] on [B1]'s state, when [B1]'s parent is not
    tracked. *)
Theorem chain_ordered_and_commit_roundtrip :
  (∀ st : BlockState, links_consecutive st →
     chain st = parent_state_chain st ++ [st] ∧
     last (chain st) = Some st ∧
     Sorted (fun a c => number c = (number a + 1)%N) (chain st) ∧
     StronglySorted (fun a c => (number a < number c)%N) (chain st)) ∧
  (∀ (s : InMemoryState) (B1 B2 B3 : ExecutedBlock),
     sb_parent_hash (eb_block B2) = eb_hash B1 →
     sb_parent_hash (eb_block B3) = eb_hash B2 →
     eb_hash B1 ≠ eb_hash B2 → eb_hash B2 ≠ eb_hash B3 → eb_hash B1 ≠ eb_hash B3 →
     blocks s !! sb_parent_hash (eb_block B1) = None →
     (fun st => bs_block <$> chain st) <$>
       state_by_hash (update_chain s (Commit [B1; B2; B3])) (eb_hash B3) = Some [B1; B2; B3] ∧
     (fun st => bs_block <$> chain st) <$>
       state_by_hash (update_chain s (Commit [B1; B2; B3])) (eb_hash B1) = Some [B1]).
Proof.
  split.
  - intros st Hl. destruct (chain_links_consecutive st Hl) as [Hs Hlast].
    split_and!; [done|done|done|].
    apply Sorted_StronglySorted; [intros x y z Hxy Hyz; simpl in *; lia|].
    rewrite <- (list_fmap_id (chain st)).
    apply (Sorted_fmap id (fun a c => number c = (number a + 1)%N)); [|done].
    intros x y Hxy. simpl in *. lia.
  - intros s B1 B2 B3 H2 H3 H12 H23 H13 H1.
    unfold state_by_hash, update_chain, update_blocks, insert_block,
      BlockState_with_parent, hash, number, eb_hash in *.
    pose proof (not_eq_sym H12). pose proof (not_eq_sym H23). pose proof (not_eq_sym H13).
    simpl. rewrite H1, H2, H3. simplify_map_eq. done.
Qed.

(** ** Head state *)

Lemma max_by_key_foldl_spec :
  ∀ (l : list (N * N)) a, ∃ e, foldl max_by_key_step (Some a) l = Some e ∧
    e ∈ a :: l ∧ ∀ e', e' ∈ a :: l → (e'.1 <= e.1)%N.
Proof.
  induction l as [|x l IH]; intros a; cbn [foldl].
  - exists a. split_and!; [done|set_solver|]. intros e' He'.
    apply list_elem_of_singleton in He' as ->. lia.
  - set (a' := if (a.1 <=? x.1)%N then x else a).
    assert (max_by_key_step (Some a) x = Some a') as ->.
    { unfold a'. simpl. by destruct (a.1 <=? x.1)%N. }
    destruct (IH a') as (e & He & Hin & Hmax). exists e. split_and!; [done| |].
    + unfold a' in Hin. destruct (a.1 <=? x.1)%N; set_solver.
    + intros e' He'. pose proof (Hmax a' ltac:(set_solver)) as Ha'.
      apply elem_of_cons in He' as [->|He'];
        [|apply elem_of_cons in He' as [->|He']]; [| |by apply Hmax; set_solver].
      * unfold a' in Ha'. destruct (N.leb_spec a.1 x.1); lia.
      * unfold a' in Ha'. destruct (N.leb_spec a.1 x.1); lia.
Qed.

Lemma head_state_max (s : InMemoryState) n h :
  numbers s !! n = Some h → (∀ m h', numbers s !! m = Some h' → (m <= n)%N) →
  head_state s = blocks s !! h.
Proof.
  intros Hn Hmax. unfold head_state, max_by_key.
  assert ((n, h) ∈ map_to_list (numbers s)) as Hin by by apply elem_of_map_to_list.
  destruct (map_to_list (numbers s)) as [|a l] eqn:Hl; [set_solver|]. simpl.
  destruct (max_by_key_foldl_spec l a) as ([n' h'] & -> & He & Hle). simpl.
  rewrite <- Hl in He. apply elem_of_map_to_list in He.
  specialize (Hle (n, h) Hin). specialize (Hmax _ _ He). simpl in *.
  assert (n' = n) as -> by lia. congruence.
Qed.

Lemma head_state_empty (s : InMemoryState) : numbers s = ∅ → head_state s = None.
Proof. intros Hn. unfold head_state. by rewrite Hn, map_to_list_empty. Qed.

Lemma insert_blocks_numbers_cases m l n h :
  (insert_blocks m l).2 !! n = Some h → m.2 !! n = Some h ∨ ∃ b, b ∈ l ∧ eb_number b = n.
Proof.
  revert m. induction l as [|b l IH]; intros m Hn; simpl in *; [by left|].
  destruct (IH _ Hn) as [Hm|(b' & Hb' & Heq)]; [|right; exists b'; set_solver].
  rewrite insert_block_snd in Hm. apply lookup_insert_Some in Hm as [[<- _]|[_ Hm]].
  - right. exists b. set_solver.
  - by left.
Qed.

Lemma commit_extends_head_number s new tip :
  extends_head s new → last new = Some tip →
  number <$> head_state (update_chain s (Commit new)) = Some (eb_number tip).
Proof.
  intros (_ & Hsorted & Habove) Hlast.
  apply last_Some in Hlast as [l' ->].
  assert (StronglySorted (fun a b => (eb_number a < eb_number b)%N) (l' ++ [tip])) as Hss.
  { apply Sorted_StronglySorted; [intros x y z ??; simpl in *; lia|done]. }
  unfold update_chain, update_blocks. cbn [remove_reorged].
  rewrite insert_blocks_app. cbn [insert_blocks].
  rewrite (head_state_max _ (eb_number tip) (eb_hash tip)).
  - cbn [blocks]. rewrite insert_block_fst, lookup_insert_eq. done.
  - cbn [numbers]. rewrite insert_block_snd, lookup_insert_eq. done.
  - cbn [numbers]. intros m h' Hm. rewrite insert_block_snd in Hm.
    apply lookup_insert_Some in Hm as [[<- _]|[_ Hm]]; [lia|].
    apply insert_blocks_numbers_cases in Hm as [Hm|(b & Hb & <-)].
    + assert (m < eb_number tip)%N; [|lia]. eapply Habove; [exact Hm|set_solver].
    + assert (eb_number b < eb_number tip)%N; [|lia].
      eapply (StronglySorted_app_1_elem_of _ _ _ _ _ Hss); set_solver.
Qed.

Lemma commit_all_head_number :
  ∀ (cs : list (list ExecutedBlock)) s c tip,
  commits_extend s cs → last cs = Some c → last c = Some tip →
  number <$> head_state (commit_all s cs) = Some (eb_number tip).
Proof.
  induction cs as [|c0 cs IH]; intros s c tip Hext Hlast Htip; [discriminate|].
  destruct Hext as [H0 Hrest]. destruct cs as [|c1 cs].
  - simpl in Hlast. injection Hlast as <-. simpl. by apply commit_extends_head_number.
  - simpl. apply (IH _ c); [done|done|done].
Qed.

(** C6: [head_state()] is the state tracked under the hash of the largest
    number in the number map (none when that map is empty); and after any
    sequence of [Commit] transitions, each extending the head reached so
    far, the head's number is the number of the last block of the last
    commit. *)
Theorem head_state_max_and_commit_tip :
  (∀ s : InMemoryState, numbers s = ∅ → head_state s = None) ∧
  (∀ (s : InMemoryState) (n h : N),
     numbers s !! n = Some h → (∀ m h', numbers s !! m = Some h' → (m <= n)%N) →
     head_state s = blocks s !! h) ∧
  (∀ (s : InMemoryState) (cs : list (list ExecutedBlock)) c tip,
     commits_extend s cs → last cs = Some c → last c = Some tip →
     number <$> head_state (commit_all s cs) = Some (eb_number tip)).
Proof.
  split_and!.
  - exact head_state_empty.
  - exact head_state_max.
  - intros s cs c tip. apply commit_all_head_number.
Qed.

(** ** Pending state, receipts and notifications *)

(** C7: with a pending block set, [pending_state()] returns a fresh root
    state over the pending block (parent [None]) rather than the stored
    node, so its parent chain is empty: it shares no ancestor with the
    stored pending node, with another call's result, or with any
    canonical state; a read leaves the state as it was, so a second call
    returns another such root. *)
Theorem pending_state_fresh_root (s : InMemoryState) (p : BlockState)
  (Hp : pending s = Some p) :
  pending_state s = Some (BlockState_new (bs_block p)) ∧
  (∀ r, pending_state s = Some r →
     bs_parent r = None ∧ parent_state_chain r = [] ∧ chain r = [r] ∧
     bs_block r = bs_block p).
Proof.
  unfold pending_state. rewrite Hp. simpl. split; [done|].
  intros r Hr. injection Hr as <-. split_and!; done.
Qed.

(** C8: for a non-empty [new] (and non-empty [old] for a reorg),
    [to_chain_notification()] builds each [Chain] from the
    (block, senders) pairs of all its blocks and the execution outcome of
    its last block only. *)
Theorem to_chain_notification_last_outcome (new old : list ExecutedBlock)
  (tip_new tip_old : ExecutedBlock)
  (Hnew : last new = Some tip_new) (Hold : last old = Some tip_old) :
  to_chain_notification (Commit new) =
    Some (NotifyCommit (Chain_new (sealed_block_with_senders <$> new)
                                  (eb_execution_output tip_new) None)) ∧
  to_chain_notification (Reorg new old) =
    Some (NotifyReorg (Chain_new (sealed_block_with_senders <$> old)
                                 (eb_execution_output tip_old) None)
                      (Chain_new (sealed_block_with_senders <$> new)
                                 (eb_execution_output tip_new) None)).
Proof.
  unfold to_chain_notification, chain_of. rewrite Hnew, Hold. simpl. done.
Qed.

Lemma omap_id_filter_is_Some (br : list (option Receipt)) :
  Some <$> omap (fun opt_receipt => opt_receipt) br = filter is_Some br.
Proof.
  induction br as [|[r|] br IH]; [done| |].
  - rewrite filter_cons_True by (by eexists). csimpl. by rewrite IH.
  - rewrite filter_cons_False by (by intros [? ?]). csimpl. done.
Qed.

(** C9, as stated: in a debug build an outcome with two receipt lists
    makes [executed_block_receipts()] fail its [debug_assert!] instead
    of returning receipts. *)
Lemma executed_block_receipts_debug_panics :
  executed_block_receipts true two_receipt_lists_state = inl (DebugAssertFailed 2) ∧
  ∀ rs, executed_block_receipts true two_receipt_lists_state ≠ inr rs.
Proof. split; [reflexivity|]. intros rs. discriminate. Qed.

(** C9, amended: in a debug build more than one receipt list fails the
    [debug_assert!]; otherwise (a release build, or at most one list) the
    call returns, in order, the receipts that are not [None] in the first
    receipt list, or nothing when there is no list. *)
Theorem executed_block_receipts_spec (debug_assertions : bool) (st : BlockState) :
  (debug_assertions = true →
   1 < length (receipt_vec (receipts (eb_execution_output (bs_block st)))) →
   executed_block_receipts debug_assertions st =
     inl (DebugAssertFailed (length (receipt_vec (receipts (eb_execution_output (bs_block st))))))) ∧
  (debug_assertions = false ∨
   length (receipt_vec (receipts (eb_execution_output (bs_block st)))) <= 1 →
   ∃ rs, executed_block_receipts debug_assertions st = inr rs ∧
     (receipt_vec (receipts (eb_execution_output (bs_block st))) = [] → rs = []) ∧
     (∀ br rest, receipt_vec (receipts (eb_execution_output (bs_block st))) = br :: rest →
        Some <$> rs = filter is_Some br)).
Proof.
  unfold executed_block_receipts.
  set (rv := receipt_vec (receipts (eb_execution_output (bs_block st)))).
  split.
  - intros -> Hlen. simpl. destruct (Nat.leb_spec (length rv) 1); [lia|done].
  - intros Hcase.
    assert ((debug_assertions && negb (length rv <=? 1)%nat) = false) as ->.
    { destruct Hcase as [->|Hlen]; [done|].
      destruct (Nat.leb_spec (length rv) 1); [|lia]. by destruct debug_assertions. }
    eexists. split; [reflexivity|]. split.
    + intros ->. done.
    + intros br rest ->. exact (omap_id_filter_is_Some br).
Qed.

(** ** Concrete instances *)

#[global] Instance number_le_total : Total number_le.
Proof. intros a b. unfold number_le. lia. Qed.

(** [remove_persisted_blocks_fn] is one of the steps of the relation, so
    the relation has a successor for every state and height. *)
Lemma remove_persisted_blocks_fn_step (s : InMemoryState) (h : N) :
  remove_persisted_blocks s h (remove_persisted_blocks_fn s h).
Proof.
  constructor.
  - apply merge_sort_Permutation.
  - apply Sorted_merge_sort. apply _.
Qed.

Lemma hash_determines_number_NoDup (L : list ExecutedBlock) (P : ExecutedBlock → Prop) :
  NoDup (eb_hash <$> L) → (∀ b, P b → b ∈ L) → hash_determines_number P.
Proof.
  intros Hnd HP b1 b2 H1 H2 Hh. by rewrite (NoDup_fmap_same eb_hash L b1 b2); auto.
Qed.

Lemma sample_chain_state_inv :
  state_inv sample_chain_state ∧
  ∀ b, tracked_block sample_chain_state b → b ∈ [sample_b1; sample_b2; sample_b3].
Proof.
  assert (hash_determines_number (fun b => b ∈ [sample_b1; sample_b2; sample_b3])) as HP.
  { apply (hash_determines_number_NoDup [sample_b1; sample_b2; sample_b3]); [|done].
    apply (bool_decide_unpack _). vm_compute. reflexivity. }
  destruct (update_blocks_inv _ empty_state [sample_b1; sample_b2; sample_b3] [] HP)
    as [(_ & _ & Hin) Hinv].
  - split_and!; intros ??; simpl; rewrite lookup_empty; done.
  - by apply Forall_forall.
  - constructor.
  - split; [exact Hinv|]. intros b (h & st & Hst & <-). by eapply Hin.
Qed.

(** Closes a decidable proposition about closed terms by evaluation. *)
Ltac solve_closed := apply (bool_decide_unpack _); vm_compute; reflexivity.

Lemma sample_chain_numbers m h :
  numbers sample_chain_state !! m = Some h → (m <= 3)%N.
Proof.
  intros Hm. apply elem_of_map_to_list in Hm. vm_compute in Hm.
  repeat (apply elem_of_cons in Hm as [Hm|Hm]; [injection Hm as -> ->; lia|]).
  by apply elem_of_nil in Hm.
Qed.

Lemma sample_two_numbers m h :
  numbers (update_chain empty_state (Commit [sample_b1; sample_b2])) !! m = Some h →
  (m <= 2)%N.
Proof.
  intros Hm. apply elem_of_map_to_list in Hm. vm_compute in Hm.
  repeat (apply elem_of_cons in Hm as [Hm|Hm]; [injection Hm as -> ->; lia|]).
  by apply elem_of_nil in Hm.
Qed.

(** ** Witnesses *)

Lemma reorg_evicts_old_and_resolves_new_witness :
  blocks_keyed (blocks sample_chain_state) ∧
  (∀ b, b ∈ [sample_b3; sample_b2] → eb_hash b ∉ eb_hash <$> [sample_b2']) ∧
  state_by_hash (update_chain sample_chain_state (Reorg [sample_b2'] [sample_b3; sample_b2]))
    (eb_hash sample_b2) = None.
Proof.
  destruct sample_chain_state_inv as [(_ & Hkey & _) _].
  assert (∀ b, b ∈ [sample_b3; sample_b2] → eb_hash b ∉ eb_hash <$> [sample_b2']) as Hdisj.
  { intros b Hb.
    repeat (apply elem_of_cons in Hb as [->|Hb]; [solve_closed|]).
    by apply elem_of_nil in Hb. }
  split_and!; [exact Hkey|exact Hdisj|].
  destruct (reorg_evicts_old_and_resolves_new sample_chain_state [sample_b2']
              [sample_b3; sample_b2] Hkey Hdisj) as [Hold _].
  apply (Hold sample_b2). apply elem_of_cons. right. apply list_elem_of_singleton. reflexivity.
Defined.

Lemma remove_persisted_blocks_prunes_witness :
  blocks_keyed (blocks sample_chain_state) ∧
  remove_persisted_blocks sample_chain_state 1 (remove_persisted_blocks_fn sample_chain_state 1) ∧
  ∃ st', blocks (remove_persisted_blocks_fn sample_chain_state 1) !! eb_hash sample_b2 = Some st' ∧
         bs_block st' = sample_b2.
Proof.
  destruct sample_chain_state_inv as [(_ & Hkey & _) _].
  pose proof (remove_persisted_blocks_fn_step sample_chain_state 1) as Hstep.
  split_and!; [exact Hkey|exact Hstep|].
  destruct (remove_persisted_blocks_prunes sample_chain_state
              (remove_persisted_blocks_fn sample_chain_state 1) 1 Hkey Hstep)
    as (_ & _ & Hkept & _).
  apply (Hkept (eb_hash sample_b2) (mkBlockState sample_b2 (Some (BlockState_new sample_b1)))).
  - vm_compute. reflexivity.
  - solve_closed.
Defined.

Lemma state_inv_preserved_witness :
  state_inv (update_chain sample_chain_state (Reorg [sample_b2'] [sample_b3; sample_b2])) ∧
  state_inv (remove_persisted_blocks_fn sample_chain_state 1).
Proof.
  destruct sample_chain_state_inv as [Hinv Htr].
  destruct state_inv_preserved as [Hup Hrm]. split.
  - apply Hup; [exact Hinv|].
    apply (hash_determines_number_NoDup [sample_b2'; sample_b3; sample_b2; sample_b1]).
    + solve_closed.
    + intros b [Hb|Hb].
      * simpl in Hb. set_solver.
      * apply Htr in Hb. set_solver.
  - eapply Hrm; [exact Hinv|]. apply remove_persisted_blocks_fn_step.
Defined.

Lemma chain_ordered_and_commit_roundtrip_witness :
  links_consecutive
    (mkBlockState sample_b3 (Some (mkBlockState sample_b2 (Some (BlockState_new sample_b1))))) ∧
  last (chain
    (mkBlockState sample_b3 (Some (mkBlockState sample_b2 (Some (BlockState_new sample_b1))))))
    = Some (mkBlockState sample_b3 (Some (mkBlockState sample_b2 (Some (BlockState_new sample_b1))))) ∧
  (fun st => bs_block <$> chain st) <$>
    state_by_hash (update_chain empty_state (Commit [sample_b1; sample_b2; sample_b3]))
      (eb_hash sample_b3) = Some [sample_b1; sample_b2; sample_b3].
Proof.
  assert (links_consecutive
    (mkBlockState sample_b3 (Some (mkBlockState sample_b2 (Some (BlockState_new sample_b1))))))
    as Hl by (vm_compute; split_and!; reflexivity).
  destruct chain_ordered_and_commit_roundtrip as [Hchain Hcommit].
  split_and!; [exact Hl|apply (Hchain _ Hl)|].
  apply (Hcommit empty_state sample_b1 sample_b2 sample_b3); try reflexivity; solve_closed.
Defined.

Lemma head_state_max_and_commit_tip_witness :
  head_state empty_state = None ∧
  head_state sample_chain_state = blocks sample_chain_state !! eb_hash sample_b3 ∧
  commits_extend empty_state [[sample_b1; sample_b2]; [sample_b3]] ∧
  number <$> head_state (commit_all empty_state [[sample_b1; sample_b2]; [sample_b3]])
    = Some (eb_number sample_b3).
Proof.
  destruct head_state_max_and_commit_tip as (Hempty & Hmax & Hseq).
  assert (commits_extend empty_state [[sample_b1; sample_b2]; [sample_b3]]) as Hext.
  { simpl. split_and!; [unfold extends_head; split_and!..|done].
    - discriminate.
    - repeat constructor; solve_closed.
    - intros n h b Hn. simpl in Hn. by rewrite lookup_empty in Hn.
    - discriminate.
    - repeat constructor.
    - intros n h b Hn Hb. apply sample_two_numbers in Hn.
      apply list_elem_of_singleton in Hb as ->. unfold eb_number, sample_b3, sample_block. simpl. lia. }
  split_and!.
  - apply Hempty. reflexivity.
  - apply (Hmax _ 3%N); [vm_compute; reflexivity|]. apply sample_chain_numbers.
  - exact Hext.
  - apply (Hseq _ _ [sample_b3]); [exact Hext|reflexivity|reflexivity].
Defined.

Lemma pending_state_fresh_root_witness :
  pending (mkInMemoryState ∅ ∅ (Some (mkBlockState sample_b2 (Some (BlockState_new sample_b1)))))
    = Some (mkBlockState sample_b2 (Some (BlockState_new sample_b1))) ∧
  pending_state (mkInMemoryState ∅ ∅ (Some (mkBlockState sample_b2 (Some (BlockState_new sample_b1)))))
    = Some (BlockState_new sample_b2).
Proof.
  split; [reflexivity|].
  exact (proj1 (pending_state_fresh_root
                  (mkInMemoryState ∅ ∅ (Some (mkBlockState sample_b2 (Some (BlockState_new sample_b1)))))
                  (mkBlockState sample_b2 (Some (BlockState_new sample_b1))) eq_refl)).
Defined.

Lemma to_chain_notification_last_outcome_witness :
  last [sample_b1; sample_b2] = Some sample_b2 ∧ last [sample_b2'] = Some sample_b2' ∧
  to_chain_notification (Commit [sample_b1; sample_b2]) =
    Some (NotifyCommit (Chain_new (sealed_block_with_senders <$> [sample_b1; sample_b2])
                                  (eb_execution_output sample_b2) None)).
Proof.
  split_and!; [reflexivity|reflexivity|].
  exact (proj1 (to_chain_notification_last_outcome [sample_b1; sample_b2] [sample_b2']
                  sample_b2 sample_b2' eq_refl eq_refl)).
Defined.

Lemma executed_block_receipts_spec_witness :
  executed_block_receipts true two_receipt_lists_state = inl (DebugAssertFailed 2) ∧
  ∃ rs, executed_block_receipts false two_receipt_lists_state = inr rs ∧
        Some <$> rs = [Some 7%N].
Proof.
  split.
  - apply (proj1 (executed_block_receipts_spec true two_receipt_lists_state) eq_refl).
    vm_compute. lia.
  - destruct (proj2 (executed_block_receipts_spec false two_receipt_lists_state) (or_introl eq_refl))
      as (rs & Hrs & _ & Hf).
    exists rs. split; [exact Hrs|].
    rewrite (Hf [Some 7%N; None] [[Some 8%N]] eq_refl). reflexivity.
Defined.

Lemma remove_persisted_blocks_keeps_pending_witness :
  remove_persisted_blocks sample_chain_state 1 (remove_persisted_blocks_fn sample_chain_state 1) ∧
  pending (remove_persisted_blocks_fn sample_chain_state 1) = pending sample_chain_state.
Proof.
  pose proof (remove_persisted_blocks_fn_step sample_chain_state 1) as Hstep.
  split; [exact Hstep|].
  exact (proj1 (remove_persisted_blocks_keeps_pending _ _ _ Hstep)).
Defined.

(** ** Further lemmas on the mutation loops *)

Section MoreLoops.

Implicit Types (m : Maps) (b : ExecutedBlock) (l : list ExecutedBlock).

Lemma update_chain_blocks s c :
  update_chain s c = update_blocks s (chain_new c) (chain_old c).
Proof. by destruct c. Qed.

Lemma elem_of_transition_blocks {A} (f : ExecutedBlock → A) c x :
  x ∈ f <$> transition_blocks c ↔ x ∈ f <$> chain_new c ∨ x ∈ f <$> chain_old c.
Proof.
  destruct c as [new|new old]; simpl.
  - split; [by left|]. intros [?|Hx]; [done|]. by apply elem_of_nil in Hx.
  - rewrite fmap_app, elem_of_app. done.
Qed.

(** A number not among the inserted blocks keeps its entry. *)
Lemma insert_blocks_numbers_notin m l n :
  n ∉ eb_number <$> l → (insert_blocks m l).2 !! n = m.2 !! n.
Proof.
  revert m. induction l as [|b l IH]; intros m Hn; simpl; auto.
  rewrite IH by set_solver. rewrite insert_block_snd, lookup_insert_ne; [done|].
  set_solver.
Qed.

(** Every inserted number has an entry. *)
Lemma insert_blocks_numbers_in m l n :
  n ∈ eb_number <$> l → is_Some ((insert_blocks m l).2 !! n).
Proof.
  revert m. induction l as [|b l IH]; intros m Hin; simpl; [set_solver|].
  destruct (decide (n ∈ eb_number <$> l)) as [Hl|Hl]; [by apply IH|].
  assert (n = eb_number b) as -> by set_solver.
  rewrite insert_blocks_numbers_notin by done.
  rewrite insert_block_snd, lookup_insert_eq. by eexists.
Qed.

(** The block inserted last is the one its hash and its number resolve to. *)
Lemma insert_blocks_last m l b :
  (insert_blocks m (l ++ [b])).1 !! eb_hash b =
    Some (mkBlockState b ((insert_blocks m l).1 !! sb_parent_hash (eb_block b))) ∧
  (insert_blocks m (l ++ [b])).2 !! eb_number b = Some (eb_hash b).
Proof.
  rewrite insert_blocks_app. cbn [insert_blocks].
  rewrite insert_block_fst, insert_block_snd, !lookup_insert_eq. done.
Qed.

(** Removing tracked blocks with distinct hashes shrinks the hash map by
    their number. *)
Lemma remove_reorged_size m l :
  NoDup (eb_hash <$> l) → (∀ b, b ∈ l → is_Some (m.1 !! eb_hash b)) →
  (size (remove_reorged m l).1 + length l = size m.1)%nat.
Proof.
  revert m. induction l as [|b l IH]; intros m Hnd Hin; simpl; [lia|].
  rewrite fmap_cons in Hnd. apply NoDup_cons in Hnd as [Hnb Hnd].
  assert (is_Some (m.1 !! eb_hash b)) as Hb by (apply Hin; set_solver).
  assert (∀ b', b' ∈ l → is_Some ((remove_reorged_block m b).1 !! eb_hash b')) as Hin'.
  { intros b' Hb'. cbn [remove_reorged_block fst].
    rewrite lookup_delete_ne; [by apply Hin; set_solver|].
    intros Heq. apply Hnb. rewrite Heq. by apply list_elem_of_fmap_2. }
  pose proof (IH (remove_reorged_block m b) Hnd Hin') as Hs.
  cbn [remove_reorged_block fst] in Hs. rewrite map_size_delete_Some in Hs by done.
  assert (size m.1 ≠ 0)%nat; [|lia].
  apply map_size_non_empty_iff. intros Hm. rewrite Hm, lookup_empty in Hb.
  by destruct Hb.
Qed.

(** Inserting blocks with distinct fresh hashes grows the hash map by
    their number. *)
Lemma insert_blocks_size m l :
  NoDup (eb_hash <$> l) → (∀ b, b ∈ l → m.1 !! eb_hash b = None) →
  size (insert_blocks m l).1 = (size m.1 + length l)%nat.
Proof.
  revert m. induction l as [|b l IH]; intros m Hnd Hfresh; simpl; [lia|].
  rewrite fmap_cons in Hnd. apply NoDup_cons in Hnd as [Hnb Hnd].
  rewrite IH; [|done|].
  - rewrite insert_block_fst, map_size_insert_None; [lia|]. apply Hfresh. set_solver.
  - intros b' Hb'. rewrite insert_block_fst, lookup_insert_ne; [apply Hfresh; set_solver|].
    intros Heq. apply Hnb. rewrite Heq. by apply list_elem_of_fmap_2.
Qed.

End MoreLoops.

(** ** Further lemmas on chains and on [remove_persisted_blocks] *)

Lemma anchor_oldest :
  ∀ st, ∃ oldest, head (chain st) = Some oldest ∧ oldest ∈ lineage st ∧
    bs_parent oldest = None ∧
    anchor st = ((number oldest - 1)%N, sb_parent_hash (eb_block (bs_block oldest))).
Proof.
  fix IH 1. intros [b [p|]].
  - destruct (IH p) as (o & Hh & Hin & Hp & Ha). exists o. split_and!.
    + rewrite chain_parent, head_app, Hh. done.
    + simpl. apply elem_of_cons. by right.
    + done.
    + simpl. exact Ha.
  - exists (mkBlockState b None). split_and!; [done| |done|done].
    simpl. apply list_elem_of_singleton. done.
Qed.

Lemma elem_of_chain a st : a ∈ chain st ↔ a ∈ lineage st.
Proof.
  rewrite chain_lineage, !list_elem_of_In, <- in_rev. done.
Qed.

Lemma persist_facts (s s' : InMemoryState) (h : N) :
  blocks_keyed (blocks s) → remove_persisted_blocks s h s' →
  ∃ old, old ≡ₚ drained_blocks s h ∧ Sorted number_le old ∧
    blocks s' = (insert_blocks (∅, ∅) old).1 ∧ numbers s' = (insert_blocks (∅, ∅) old).2 ∧
    pending s' = pending s ∧
    numbers_resolve (blocks s') (numbers s') ∧ blocks_keyed (blocks s') ∧
    parents_tracked (blocks s') ∧ (∀ k st, blocks s' !! k = Some st → (h < number st)%N).
Proof.
  intros Hkey [old Hperm Hsorted]. exists old. unfold reinsert_persisted. simpl.
  destruct (reinsert_inv s h old Hkey Hperm) as (Hres' & Hkey' & Hin').
  destruct (reinsert_hashes s h old Hkey Hperm) as [Hnd _].
  destruct (insert_blocks_parents_tracked (∅, ∅) old Hnd) as [_ Hpar].
  { intros b _. apply lookup_empty. }
  { intros ?? Hx. simpl in Hx. by rewrite lookup_empty in Hx. }
  { intros ??? Hx. simpl in Hx. by rewrite lookup_empty in Hx. }
  split_and!; try done.
  intros k st Hst. pose proof (Hin' _ _ Hst) as Hb. simpl in Hb.
  rewrite Hperm in Hb. by apply elem_of_drained_blocks in Hb as [? _].
Qed.

(** The surviving ancestors of a state left by [remove_persisted_blocks]. *)
Lemma persist_chain_tracked (s s' : InMemoryState) (h : N) :
  blocks_keyed (blocks s) → remove_persisted_blocks s h s' →
  ∀ k st, blocks s' !! k = Some st → ∀ a, a ∈ chain st →
    blocks s' !! hash a = Some a ∧ (h < number a)%N.
Proof.
  intros Hkey Hstep k st Hst a Ha.
  destruct (persist_facts s s' h Hkey Hstep)
    as (old & _ & _ & _ & _ & _ & _ & Hkey' & Hpar & Habove).
  assert (blocks s' !! hash a = Some a) as Hta.
  { apply (lineage_tracked _ Hpar st); [|by apply elem_of_chain].
    by rewrite (Hkey' _ _ Hst). }
  split; [done|]. by eapply Habove.
Qed.

#[local] Instance number_le_trans : Transitive number_le.
Proof. intros a b c. unfold number_le. lia. Qed.

(** Two number-sorted orders of the same blocks with pairwise distinct
    numbers coincide. *)
Lemma sorted_numbers_unique (l1 l2 : list ExecutedBlock) :
  l1 ≡ₚ l2 → Sorted number_le l1 → Sorted number_le l2 → NoDup (eb_number <$> l1) →
  l1 = l2.
Proof.
  intros Hperm H1 H2 Hnd. apply (Sorted_unique_strong number_le); [|done|done|done].
  intros x1 x2 Hx1 Hx2 H12 H21.
  assert (x2 ∈ l1) as Hx2' by (by rewrite Hperm).
  apply (NoDup_fmap_same eb_number l1); [done|done|done|].
  unfold number_le, eb_number in *. lia.
Qed.

(** ** Further properties *)


(** X2: when every number entry resolves, [head_state()] returns a state
    exactly when the number map is not empty. *)
Theorem head_state_some_iff (s : InMemoryState)
  (Hres : numbers_resolve (blocks s) (numbers s)) :
  is_Some (head_state s) ↔ numbers s ≠ ∅.
Proof.
  split.
  - intros Hsome Hempty. rewrite head_state_empty in Hsome by done. by destruct Hsome.
  - intros Hne. unfold head_state, max_by_key.
    destruct (map_to_list (numbers s)) as [|a l] eqn:Hl.
    { by apply map_to_list_empty_iff in Hl. }
    simpl. destruct (max_by_key_foldl_spec l a) as ([n h] & -> & He & _). simpl.
    rewrite <- Hl in He. apply elem_of_map_to_list in He.
    destruct (Hres n h He) as (st & -> & _). by eexists.
Qed.

(** X3: whenever [tip()] returns a block (the last block of [new]), after
    [update_chain] with the same transition its hash resolves to a state
    built from that last block, [header_by_hash] returns its header, and
    its number resolves to the same state, whatever the transition
    removed or inserted before it. *)
Theorem update_chain_tip_resolves (s : InMemoryState) (c : NewCanonicalChain) (sb : SealedBlock)
  (Htip : tip c = Some sb) :
  header_by_hash (update_chain s c) (sb_hash sb) = Some (sealed_header sb) ∧
  ∃ st, state_by_hash (update_chain s c) (sb_hash sb) = Some st ∧
        state_by_number (update_chain s c) (sb_number sb) = Some st ∧
        eb_block (bs_block st) = sb ∧ last (chain_new c) = Some (bs_block st).
Proof.
  assert (eb_block <$> last (chain_new c) = Some sb) as Hl by (by destruct c).
  apply fmap_Some in Hl as (tb & Hlast & ->).
  pose proof Hlast as Hlast'. apply last_Some in Hlast' as [l Hnew].
  rewrite update_chain_blocks. unfold update_blocks.
  rewrite Hnew. unfold header_by_hash, state_by_hash, state_by_number. cbn [blocks numbers].
  destruct (insert_blocks_last (remove_reorged (blocks s, numbers s) (chain_old c)) l tb)
    as [Hb Hn].
  change (sb_hash (eb_block tb)) with (eb_hash tb).
  change (sb_number (eb_block tb)) with (eb_number tb).
  rewrite Hb, Hn. simpl. rewrite Hb. split; [done|].
  eexists. split_and!; [reflexivity|reflexivity|reflexivity|apply last_snoc].
Qed.

(** X4: [update_chain] touches only the hashes and numbers of the
    transition's blocks: a hash of no block of [new] or [old] resolves to
    the same state as before, and a number of no such block keeps its
    number-map entry. *)
Theorem update_chain_frame (s : InMemoryState) (c : NewCanonicalChain) :
  (∀ h, h ∉ eb_hash <$> transition_blocks c →
     state_by_hash (update_chain s c) h = state_by_hash s h) ∧
  (∀ n, n ∉ eb_number <$> transition_blocks c →
     numbers (update_chain s c) !! n = numbers s !! n).
Proof.
  rewrite update_chain_blocks. unfold update_blocks, state_by_hash. cbn [blocks numbers].
  split.
  - intros h Hh. rewrite elem_of_transition_blocks in Hh.
    rewrite insert_blocks_blocks_notin by naive_solver.
    rewrite remove_reorged_blocks_lookup, decide_False by naive_solver. done.
  - intros n Hn. rewrite elem_of_transition_blocks in Hn.
    rewrite insert_blocks_numbers_notin by naive_solver.
    rewrite remove_reorged_numbers_lookup, decide_False by naive_solver. done.
Qed.

(** X5: a [Reorg] frees the number of every block of [old] that no block
    of [new] takes over: that number has no entry afterwards and
    [state_by_number] returns nothing for it, whichever block the entry
    pointed at before. *)
Theorem reorg_frees_old_numbers (s : InMemoryState) (new old : list ExecutedBlock)
  (b : ExecutedBlock) (Hb : b ∈ old) (Hn : eb_number b ∉ eb_number <$> new) :
  numbers (update_chain s (Reorg new old)) !! eb_number b = None ∧
  state_by_number (update_chain s (Reorg new old)) (eb_number b) = None.
Proof.
  assert (numbers (update_chain s (Reorg new old)) !! eb_number b = None) as Hnone.
  { unfold update_chain, update_blocks. cbn [numbers].
    rewrite insert_blocks_numbers_notin by done.
    rewrite remove_reorged_numbers_lookup, decide_True; [done|].
    by apply list_elem_of_fmap_2. }
  split; [done|]. unfold state_by_number. by rewrite Hnone.
Qed.

(** X6: an empty [Commit] is accepted by [update_chain], which then leaves
    both maps as they were and only clears the pending block, while
    [tip()] and [to_chain_notification()] panic on it. *)
Theorem empty_commit_edge (s : InMemoryState) :
  blocks (update_chain s (Commit [])) = blocks s ∧
  numbers (update_chain s (Commit [])) = numbers s ∧
  pending (update_chain s (Commit [])) = None ∧
  tip (Commit []) = None ∧ to_chain_notification (Commit []) = None.
Proof. split_and!; reflexivity. Qed.

(** X7: [to_chain_notification()] panics exactly when [new] is empty or
    the transition is a [Reorg] with an empty [old]; [tip()] panics
    exactly when [new] is empty. *)
Theorem to_chain_notification_panics_iff (c : NewCanonicalChain) :
  (to_chain_notification c = None ↔
     new_block_count c = 0%nat ∨
     ∃ new old, c = Reorg new old ∧ reorged_block_count c = 0%nat) ∧
  (tip c = None ↔ new_block_count c = 0%nat).
Proof.
  assert (∀ v : list ExecutedBlock, chain_of v = None ↔ length v = 0%nat) as Hv.
  { intros v. unfold chain_of. destruct (last v) as [l|] eqn:Hl; simpl.
    - split; [discriminate|]. intros Hlen. apply length_zero_iff_nil in Hlen as ->.
      discriminate.
    - apply last_None in Hl as ->. done. }
  assert (∀ v : list ExecutedBlock, eb_block <$> last v = None ↔ length v = 0%nat) as Ht.
  { intros v. rewrite fmap_None, last_None. split; [by intros ->|].
    apply length_zero_iff_nil. }
  destruct c as [new|new old];
    cbn [to_chain_notification tip new_block_count reorged_block_count]; split.
  - rewrite fmap_None, Hv. split; [by left|]. intros [?|(? & ? & ? & _)]; [done|discriminate].
  - apply Ht.
  - rewrite <- (Hv new). split.
    + destruct (chain_of new) as [n|]; cbn [mbind option_bind]; [|by left].
      destruct (chain_of old) as [o|] eqn:Ho; cbn [mbind option_bind]; [discriminate|].
      intros _. right. exists new, old. split; [done|]. by apply Hv.
    + intros [Hn|(n' & o' & [= <- <-] & Ho)]; [by rewrite Hn|].
      apply Hv in Ho. destruct (chain_of new); cbn [mbind option_bind]; [|done].
      by rewrite Ho.
  - apply Ht.
Qed.

(** X8: when the blocks of [old] are tracked under pairwise distinct
    hashes and the blocks of [new] have pairwise distinct hashes, each
    either untracked or one of [old]'s, [update_chain] changes the block
    count by [new_block_count() - reorged_block_count()]. *)
Theorem update_chain_block_count (s : InMemoryState) (c : NewCanonicalChain)
  (Hnd_old : NoDup (eb_hash <$> chain_old c))
  (Htracked : ∀ b, b ∈ chain_old c → is_Some (blocks s !! eb_hash b))
  (Hnd_new : NoDup (eb_hash <$> chain_new c))
  (Hfresh : ∀ b, b ∈ chain_new c →
     blocks s !! eb_hash b = None ∨ eb_hash b ∈ eb_hash <$> chain_old c) :
  (block_count (update_chain s c) + reorged_block_count c =
     block_count s + new_block_count c)%nat.
Proof.
  assert (reorged_block_count c = length (chain_old c) ∧
          new_block_count c = length (chain_new c)) as [-> ->] by (by destruct c).
  rewrite update_chain_blocks. unfold block_count, update_blocks. cbn [blocks].
  pose proof (remove_reorged_size (blocks s, numbers s) (chain_old c) Hnd_old Htracked)
    as Hrm.
  rewrite insert_blocks_size; [cbn [fst] in Hrm; lia|done|].
  intros b Hb. rewrite remove_reorged_blocks_lookup.
  case_decide as Hin; [done|]. destruct (Hfresh b Hb) as [?|?]; [done|contradiction].
Qed.

(** X9: [anchor()] is the parent (number, hash) of the oldest state of
    [chain()], the one without a parent; its number is that block's
    number minus one, saturating at 0. *)
Theorem anchor_is_oldest_parent (st : BlockState) :
  ∃ oldest, head (chain st) = Some oldest ∧ bs_parent oldest = None ∧
    anchor st = ((number oldest - 1)%N, sb_parent_hash (eb_block (bs_block oldest))).
Proof.
  destruct (anchor_oldest st) as (o & Hh & _ & Hp & Ha). by exists o.
Qed.

(** X10: a [Commit] links its last block to the state tracked under the
    block's parent hash before the call, when no earlier block of the
    commit carries that hash: the new state's parent is that state, its
    [chain()] is the parent's [chain()] followed by itself (or itself
    alone when the parent is untracked), and its [anchor()] is the
    parent's (or its own parent number and hash). *)
Theorem commit_links_tracked_parent (s : InMemoryState) (l : list ExecutedBlock)
  (b : ExecutedBlock) (Hfresh : sb_parent_hash (eb_block b) ∉ eb_hash <$> l) :
  ∃ st, state_by_hash (update_chain s (Commit (l ++ [b]))) (eb_hash b) = Some st ∧
    bs_block st = b ∧
    bs_parent st = blocks s !! sb_parent_hash (eb_block b) ∧
    chain st = match blocks s !! sb_parent_hash (eb_block b) with
               | Some p => chain p ++ [st]
               | None => [st]
               end ∧
    anchor st = match blocks s !! sb_parent_hash (eb_block b) with
                | Some p => anchor p
                | None => ((eb_number b - 1)%N, sb_parent_hash (eb_block b))
                end.
Proof.
  unfold update_chain, update_blocks, state_by_hash. cbn [blocks remove_reorged].
  destruct (insert_blocks_last (blocks s, numbers s) l b) as [Hb _].
  rewrite Hb, insert_blocks_blocks_notin by done. cbn [fst].
  eexists. split_and!; [reflexivity|reflexivity|reflexivity| |].
  - destruct (blocks s !! sb_parent_hash (eb_block b)) as [p|].
    + apply chain_parent.
    + rewrite chain_lineage. done.
  - destruct (blocks s !! sb_parent_hash (eb_block b)) as [p|]; reflexivity.
Qed.

(** X11: after [remove_persisted_blocks(h)] (from a state whose blocks
    are stored under their own hashes), every state of the [chain()] of a
    surviving state is above [h], and the [anchor()] of a surviving state
    is at height [h] or above: no surviving chain reaches back into the
    persisted range. *)
Theorem remove_persisted_blocks_anchor (s s' : InMemoryState) (h : N)
  (Hkey : blocks_keyed (blocks s)) (Hstep : remove_persisted_blocks s h s') :
  ∀ k st, blocks s' !! k = Some st →
    (∀ a, a ∈ chain st → (h < number a)%N) ∧ (h <= (anchor st).1)%N.
Proof.
  intros k st Hst.
  pose proof (persist_chain_tracked s s' h Hkey Hstep k st Hst) as Hchain.
  split; [intros a Ha; by apply Hchain|].
  destruct (anchor_oldest st) as (o & Hh & Hin & _ & ->). simpl.
  assert (h < number o)%N; [|lia].
  apply Hchain, elem_of_chain, Hin.
Qed.

(** X12: after [remove_persisted_blocks(h)] (from a state whose blocks
    are stored under their own hashes), the in-memory blocks
    [state_provider] overlays on the historical provider are empty for an
    untracked hash; for a tracked hash they end with that state's block,
    and every one of them is above [h] and still tracked under its hash. *)
Theorem state_provider_after_persist (s s' : InMemoryState) (h : N)
  (Hkey : blocks_keyed (blocks s)) (Hstep : remove_persisted_blocks s h s') :
  ∀ k, (blocks s' !! k = None → state_provider_in_memory s' k = []) ∧
       (∀ st, blocks s' !! k = Some st →
          last (state_provider_in_memory s' k) = Some (bs_block st)) ∧
       (∀ b, b ∈ state_provider_in_memory s' k →
          (h < eb_number b)%N ∧ ∃ st, blocks s' !! eb_hash b = Some st ∧ bs_block st = b).
Proof.
  intros k. unfold state_provider_in_memory, state_by_hash.
  destruct (blocks s' !! k) as [st|] eqn:Hst; split_and!.
  - discriminate.
  - intros st' [= <-]. unfold chain. rewrite fmap_app. apply last_snoc.
  - intros b Hb. apply list_elem_of_fmap in Hb as (a & -> & Ha).
    destruct (persist_chain_tracked s s' h Hkey Hstep k st Hst a Ha) as [Ht Hlt].
    split; [done|]. by exists a.
  - done.
  - discriminate.
  - intros b Hb. by apply elem_of_nil in Hb.
Qed.

(** X13: after any [update_chain] every pending accessor returns nothing,
    without panicking even in a debug build; [remove_persisted_blocks]
    leaves each of them returning what it returned before. *)
Theorem pending_accessors_transitions (s s' : InMemoryState) (h : N) (debug_assertions : bool)
  (Hstep : remove_persisted_blocks s h s') :
  (∀ c, pending_state (update_chain s c) = None ∧
        pending_block_num_hash (update_chain s c) = None ∧
        pending_sealed_header (update_chain s c) = None ∧
        pending_block (update_chain s c) = None ∧
        pending_block_and_receipts debug_assertions (update_chain s c) = inr None) ∧
  pending_state s' = pending_state s ∧
  pending_block_num_hash s' = pending_block_num_hash s ∧
  pending_sealed_header s' = pending_sealed_header s ∧
  pending_block s' = pending_block s ∧
  pending_block_and_receipts debug_assertions s' = pending_block_and_receipts debug_assertions s.
Proof.
  destruct Hstep as [old _ _]. split_and!; try reflexivity.
  intros c. rewrite update_chain_blocks. split_and!; reflexivity.
Qed.

(** X14: the unspecified drain order and the unstable sort do not matter
    when the blocks above [h] have pairwise distinct numbers: every run of
    [remove_persisted_blocks(h)] then yields the same state. *)
Theorem remove_persisted_blocks_deterministic (s s1 s2 : InMemoryState) (h : N)
  (Hnd : NoDup (eb_number <$> drained_blocks s h))
  (H1 : remove_persisted_blocks s h s1) (H2 : remove_persisted_blocks s h s2) :
  s1 = s2.
Proof.
  destruct H1 as [old1 Hp1 Hs1], H2 as [old2 Hp2 Hs2].
  rewrite (sorted_numbers_unique old1 old2); [done| |done|done|].
  - by rewrite Hp1, Hp2.
  - by rewrite Hp1.
Qed.

(** X15: [remove_persisted_blocks(h)] with [h] at or above every tracked
    block's number empties both maps, so [head_state()] returns nothing,
    and keeps the pending block. *)
Theorem remove_persisted_blocks_all (s s' : InMemoryState) (h : N)
  (Hall : ∀ k st, blocks s !! k = Some st → (number st <= h)%N)
  (Hstep : remove_persisted_blocks s h s') :
  blocks s' = ∅ ∧ numbers s' = ∅ ∧ head_state s' = None ∧ pending s' = pending s.
Proof.
  destruct Hstep as [old Hperm _].
  assert (drained_blocks s h = []) as Hd.
  { destruct (drained_blocks s h) as [|b l] eqn:E; [done|].
    assert (b ∈ drained_blocks s h) as Hb by (rewrite E; left).
    apply elem_of_drained_blocks in Hb as (Hlt & k & st & Hst & <-).
    specialize (Hall k st Hst). unfold number, eb_number in *. lia. }
  rewrite Hd in Hperm. apply Permutation_nil_r in Hperm as ->.
  split_and!; reflexivity.
Qed.

(** X16: after [remove_persisted_blocks(h)] (from a state whose blocks
    are stored under their own hashes) [state_by_number] resolves exactly
    the numbers of the blocks tracked before above [h]: the number map is
    rebuilt from the surviving blocks, including any whose number had no
    entry before. *)
Theorem remove_persisted_blocks_heights (s s' : InMemoryState) (h : N)
  (Hkey : blocks_keyed (blocks s)) (Hstep : remove_persisted_blocks s h s') :
  ∀ n, is_Some (state_by_number s' n) ↔
       ∃ k st, blocks s !! k = Some st ∧ (h < number st)%N ∧ number st = n.
Proof.
  destruct (persist_facts s s' h Hkey Hstep)
    as (old & Hperm & _ & Hbl & Hnu & _ & Hres & _ & _ & _).
  intros n. unfold state_by_number. split.
  - intros [st Hst]. destruct (numbers s' !! n) as [k|] eqn:Hk; simpl in Hst; [|discriminate].
    rewrite Hnu in Hk. apply insert_blocks_numbers_cases in Hk as [Hk|(b & Hb & <-)].
    { simpl in Hk. by rewrite lookup_empty in Hk. }
    rewrite Hperm in Hb. apply elem_of_drained_blocks in Hb as (Hlt & k' & st' & Hst' & <-).
    by exists k', st'.
  - intros (k & st & Hst & Hlt & <-).
    assert (bs_block st ∈ old) as Hold.
    { rewrite Hperm. apply elem_of_drained_blocks. split; [done|]. by exists k, st. }
    destruct (insert_blocks_numbers_in (∅, ∅) old (number st)) as [k' Hk'].
    { exact (list_elem_of_fmap_2 eb_number old (bs_block st) Hold). }
    rewrite <- Hnu in Hk'. rewrite Hk'. simpl.
    destruct (Hres _ _ Hk') as (st' & -> & _). by eexists.
Qed.

(** ** Witnesses of the further properties *)


Lemma head_state_some_iff_witness :
  numbers_resolve (blocks sample_chain_state) (numbers sample_chain_state) ∧
  is_Some (head_state sample_chain_state).
Proof.
  destruct sample_chain_state_inv as [(Hres & _ & _) _].
  split; [exact Hres|].
  apply (proj2 (head_state_some_iff sample_chain_state Hres)).
  intros Hempty.
  assert (numbers sample_chain_state !! 3%N = Some 13%N) as H3 by (vm_compute; reflexivity).
  rewrite Hempty, lookup_empty in H3. discriminate.
Defined.

Lemma update_chain_tip_resolves_witness :
  tip (Reorg [sample_b2'] [sample_b3; sample_b2]) = Some (eb_block sample_b2') ∧
  header_by_hash (update_chain sample_chain_state (Reorg [sample_b2'] [sample_b3; sample_b2]))
    (sb_hash (eb_block sample_b2')) = Some (sealed_header (eb_block sample_b2')).
Proof.
  split; [reflexivity|].
  exact (proj1 (update_chain_tip_resolves sample_chain_state
                  (Reorg [sample_b2'] [sample_b3; sample_b2]) (eb_block sample_b2') eq_refl)).
Defined.

Lemma update_chain_frame_witness :
  (11%N ∉ eb_hash <$> transition_blocks (Reorg [sample_b2'] [sample_b3; sample_b2])) ∧
  state_by_hash (update_chain sample_chain_state (Reorg [sample_b2'] [sample_b3; sample_b2])) 11
    = state_by_hash sample_chain_state 11.
Proof.
  assert (11%N ∉ eb_hash <$> transition_blocks (Reorg [sample_b2'] [sample_b3; sample_b2]))
    as Hn by solve_closed.
  split; [exact Hn|].
  exact (proj1 (update_chain_frame sample_chain_state
                  (Reorg [sample_b2'] [sample_b3; sample_b2])) 11%N Hn).
Defined.

Lemma reorg_frees_old_numbers_witness :
  sample_b3 ∈ [sample_b3; sample_b2] ∧ (eb_number sample_b3 ∉ eb_number <$> [sample_b2']) ∧
  state_by_number (update_chain sample_chain_state (Reorg [sample_b2'] [sample_b3; sample_b2]))
    (eb_number sample_b3) = None.
Proof.
  assert (sample_b3 ∈ [sample_b3; sample_b2]) as Hb by left.
  assert (eb_number sample_b3 ∉ eb_number <$> [sample_b2']) as Hn by solve_closed.
  split_and!; [exact Hb|exact Hn|].
  exact (proj2 (reorg_frees_old_numbers sample_chain_state [sample_b2'] [sample_b3; sample_b2]
                  sample_b3 Hb Hn)).
Defined.

Lemma to_chain_notification_panics_iff_witness :
  to_chain_notification (Reorg [sample_b2'] []) = None ∧ tip (Commit [sample_b1]) ≠ None.
Proof.
  split.
  - apply (proj1 (to_chain_notification_panics_iff (Reorg [sample_b2'] []))).
    right. by exists [sample_b2'], [].
  - intros Ht. apply (proj2 (to_chain_notification_panics_iff (Commit [sample_b1]))) in Ht.
    discriminate.
Defined.

Lemma update_chain_block_count_witness :
  NoDup (eb_hash <$> chain_old (Reorg [sample_b2'] [sample_b3; sample_b2])) ∧
  (∀ b, b ∈ chain_old (Reorg [sample_b2'] [sample_b3; sample_b2]) →
     is_Some (blocks sample_chain_state !! eb_hash b)) ∧
  NoDup (eb_hash <$> chain_new (Reorg [sample_b2'] [sample_b3; sample_b2])) ∧
  (∀ b, b ∈ chain_new (Reorg [sample_b2'] [sample_b3; sample_b2]) →
     blocks sample_chain_state !! eb_hash b = None ∨
     eb_hash b ∈ eb_hash <$> chain_old (Reorg [sample_b2'] [sample_b3; sample_b2])) ∧
  (block_count (update_chain sample_chain_state (Reorg [sample_b2'] [sample_b3; sample_b2]))
     + 2 = 3 + 1)%nat.
Proof.
  assert (NoDup (eb_hash <$> chain_old (Reorg [sample_b2'] [sample_b3; sample_b2])))
    as H1 by solve_closed.
  assert (∀ b, b ∈ chain_old (Reorg [sample_b2'] [sample_b3; sample_b2]) →
     is_Some (blocks sample_chain_state !! eb_hash b)) as H2.
  { intros b Hb. simpl in Hb.
    repeat (apply elem_of_cons in Hb as [->|Hb]; [vm_compute; by eexists|]).
    by apply elem_of_nil in Hb. }
  assert (NoDup (eb_hash <$> chain_new (Reorg [sample_b2'] [sample_b3; sample_b2])))
    as H3 by solve_closed.
  assert (∀ b, b ∈ chain_new (Reorg [sample_b2'] [sample_b3; sample_b2]) →
     blocks sample_chain_state !! eb_hash b = None ∨
     eb_hash b ∈ eb_hash <$> chain_old (Reorg [sample_b2'] [sample_b3; sample_b2])) as H4.
  { intros b Hb. simpl in Hb. apply list_elem_of_singleton in Hb as ->.
    left. vm_compute. reflexivity. }
  split_and!; [exact H1|exact H2|exact H3|exact H4|].
  exact (update_chain_block_count sample_chain_state
           (Reorg [sample_b2'] [sample_b3; sample_b2]) H1 H2 H3 H4).
Defined.

Lemma commit_links_tracked_parent_witness :
  (sb_parent_hash (eb_block sample_b4) ∉ eb_hash <$> []) ∧
  ∃ st, state_by_hash (update_chain sample_chain_state (Commit ([] ++ [sample_b4])))
          (eb_hash sample_b4) = Some st ∧
        bs_parent st = blocks sample_chain_state !! 13%N.
Proof.
  assert (sb_parent_hash (eb_block sample_b4) ∉ eb_hash <$> []) as Hf by solve_closed.
  split; [exact Hf|].
  destruct (commit_links_tracked_parent sample_chain_state [] sample_b4 Hf)
    as (st & Hst & _ & Hp & _). by exists st.
Defined.

Lemma remove_persisted_blocks_anchor_witness :
  blocks_keyed (blocks sample_chain_state) ∧
  remove_persisted_blocks sample_chain_state 1 (remove_persisted_blocks_fn sample_chain_state 1) ∧
  ∀ k st, blocks (remove_persisted_blocks_fn sample_chain_state 1) !! k = Some st →
    (1 <= (anchor st).1)%N.
Proof.
  destruct sample_chain_state_inv as [(_ & Hkey & _) _].
  pose proof (remove_persisted_blocks_fn_step sample_chain_state 1) as Hstep.
  split_and!; [exact Hkey|exact Hstep|].
  intros k st Hst.
  exact (proj2 (remove_persisted_blocks_anchor _ _ _ Hkey Hstep k st Hst)).
Defined.

Lemma state_provider_after_persist_witness :
  blocks_keyed (blocks sample_chain_state) ∧
  remove_persisted_blocks sample_chain_state 1 (remove_persisted_blocks_fn sample_chain_state 1) ∧
  state_provider_in_memory (remove_persisted_blocks_fn sample_chain_state 1) 11 = [].
Proof.
  destruct sample_chain_state_inv as [(_ & Hkey & _) _].
  pose proof (remove_persisted_blocks_fn_step sample_chain_state 1) as Hstep.
  split_and!; [exact Hkey|exact Hstep|].
  apply (proj1 (state_provider_after_persist _ _ _ Hkey Hstep 11)).
  vm_compute. reflexivity.
Defined.

Lemma pending_accessors_transitions_witness :
  remove_persisted_blocks sample_chain_state 1 (remove_persisted_blocks_fn sample_chain_state 1) ∧
  pending_block_and_receipts true
    (update_chain sample_chain_state (Reorg [sample_b2'] [sample_b3; sample_b2])) = inr None.
Proof.
  pose proof (remove_persisted_blocks_fn_step sample_chain_state 1) as Hstep.
  split; [exact Hstep|].
  exact (proj2 (proj2 (proj2 (proj2
    (proj1 (pending_accessors_transitions _ _ _ true Hstep)
       (Reorg [sample_b2'] [sample_b3; sample_b2])))))).
Defined.

Lemma remove_persisted_blocks_deterministic_witness :
  NoDup (eb_number <$> drained_blocks sample_chain_state 1) ∧
  ∀ s2, remove_persisted_blocks sample_chain_state 1 s2 →
        remove_persisted_blocks_fn sample_chain_state 1 = s2.
Proof.
  assert (NoDup (eb_number <$> drained_blocks sample_chain_state 1)) as Hnd by solve_closed.
  split; [exact Hnd|]. intros s2 H2.
  exact (remove_persisted_blocks_deterministic sample_chain_state _ s2 1 Hnd
           (remove_persisted_blocks_fn_step sample_chain_state 1) H2).
Defined.

Lemma remove_persisted_blocks_all_witness :
  (∀ k st, blocks sample_chain_state !! k = Some st → (number st <= 3)%N) ∧
  blocks (remove_persisted_blocks_fn sample_chain_state 3) = ∅.
Proof.
  assert (∀ k st, blocks sample_chain_state !! k = Some st → (number st <= 3)%N) as Hall.
  { intros k st Hst. apply elem_of_map_to_list in Hst. vm_compute in Hst.
    repeat (apply elem_of_cons in Hst as [Hst|Hst];
            [injection Hst as -> ->; unfold number; simpl; lia|]).
    by apply elem_of_nil in Hst. }
  split; [exact Hall|].
  exact (proj1 (remove_persisted_blocks_all sample_chain_state _ 3 Hall
                  (remove_persisted_blocks_fn_step sample_chain_state 3))).
Defined.

Lemma remove_persisted_blocks_heights_witness :
  blocks_keyed (blocks sample_chain_state) ∧
  remove_persisted_blocks sample_chain_state 1 (remove_persisted_blocks_fn sample_chain_state 1) ∧
  is_Some (state_by_number (remove_persisted_blocks_fn sample_chain_state 1) 2).
Proof.
  destruct sample_chain_state_inv as [(_ & Hkey & _) _].
  pose proof (remove_persisted_blocks_fn_step sample_chain_state 1) as Hstep.
  split_and!; [exact Hkey|exact Hstep|].
  apply (proj2 (remove_persisted_blocks_heights _ _ _ Hkey Hstep 2)).
  exists 12%N, (mkBlockState sample_b2 (Some (BlockState_new sample_b1))).
  split_and!; [vm_compute; reflexivity|vm_compute; reflexivity|reflexivity].
Defined.
